(** * taxi_app.py: an in-memory taxi dispatch core

    A shallow embedding of [src/taxi_app.py] (class [TaxiApp] and the three
    dataclasses it stores) and the properties of its operations.

    Data model.
    - Python [int] is [Z]; Python [float] is IEEE 754 binary64, here the
      primitive [float] with its own [-], [+], [*] and [<].
    - A Python [dict] keeps insertion order and is iterated in it, so a dict
      is an association list from keys to objects (module [Dict]).
    - [Driver] and [Ride] objects are mutated in place and a [Ride] keeps a
      reference to its [Driver].  The objects live in the dicts of the
      application; a reference to a driver is the key under which
      [register_driver] stored it (objects are never removed or replaced),
      and a field assignment through a reference is [Dict.modify] at that
      key.  [Rider] objects are never mutated, a ride holds the value.
    - [print] appends a line to the output; a line is the list of the
      pieces of its f-string.
    - [math.hypot] and [round(_, 2)] belong to the Python library, not to
      this repository: the model takes them as parameters. *)

From Stdlib Require Import ZArith List String Ascii Bool Lia Floats Sorted.
Import ListNotations.

Open Scope Z_scope.

(** ** Insertion-ordered dictionaries with integer keys *)

Module Dict.

Definition t (V : Type) : Type := list (Z * V).

Definition keys {V} (d : t V) : list Z := map fst d.

Definition values {V} (d : t V) : list V := map snd d.

(** [d.get(k)] *)
Fixpoint get {V} (d : t V) (k : Z) : option V :=
  match d with
  | [] => None
  | (k', v) :: d' => if k' =? k then Some v else get d' k
  end.

(** [d[k] = v]: an existing key keeps its place, a new key goes last. *)
Fixpoint set {V} (d : t V) (k : Z) (v : V) : t V :=
  match d with
  | [] => [(k, v)]
  | (k', v') :: d' =>
      if k' =? k then (k', v) :: d' else (k', v') :: set d' k v
  end.

(** Assignment to fields of the object stored under [k]: the object
    stays where it is, all its aliases see the new fields. *)
Fixpoint modify {V} (d : t V) (k : Z) (f : V -> V) : t V :=
  match d with
  | [] => []
  | (k', v) :: d' =>
      if k' =? k then (k', f v) :: d' else (k', v) :: modify d' k f
  end.

End Dict.

(** ** The dataclasses *)

Module Rider.
Record t : Type := mk { id : Z; name : string }.
End Rider.

(** A reference to a [Driver] object: the key of the object in the dict of
    drivers. *)
Abbreviation DriverRef := Z (only parsing).

Module Driver.
Record t : Type := mk {
  id : Z;
  name : string;
  x : float;
  y : float;
  available : bool
}.

Definition set_available (b : bool) (d : t) : t :=
  mk (id d) (name d) (x d) (y d) b.

(** [available = True; x = px; y = py] *)
Definition release (px py : float) (d : t) : t :=
  mk (id d) (name d) px py true.
End Driver.

Module Ride.
Record t : Type := mk {
  id : Z;
  rider : Rider.t;
  driver : DriverRef;
  start_x : float;
  start_y : float;
  dest_x : float;
  dest_y : float;
  fare : float;
  completed : bool
}.

Definition set_completed (b : bool) (r : t) : t :=
  mk (id r) (rider r) (driver r) (start_x r) (start_y r)
     (dest_x r) (dest_y r) (fare r) b.
End Ride.

(** ** Printed output *)

(** A piece of an f-string: literal text, or a formatted value. *)
Inductive Frag : Type :=
| Str (s : string)
| Int (n : Z)
| Flt (f : float).

Definition Line : Type := list Frag.

(** ** The application state *)

Record TaxiApp : Type := mkApp {
  riders : Dict.t Rider.t;
  drivers : Dict.t Driver.t;
  rides : Dict.t Ride.t;
  _rider_id : Z;
  _driver_id : Z;
  _ride_id : Z
}.

(** What a call leaves behind: the returned value, the lines it printed
    and the state of the application. *)
Record Outcome (A : Type) : Type := mkOutcome {
  ret : A;
  printed : list Line;
  after : TaxiApp
}.
Arguments mkOutcome {A} _ _ _.
Arguments ret {A} _.
Arguments printed {A} _.
Arguments after {A} _.

(** [TaxiApp.__init__] *)
Definition init : TaxiApp := mkApp [] [] [] 1 1 1.

Definition msg_rider_not_found : Line := [Str "Rider not found"].
Definition msg_no_available_drivers : Line := [Str "No available drivers"].
Definition msg_ride_not_found : Line := [Str "Ride not found"].
Definition msg_ride_already_completed : Line := [Str "Ride already completed"].

Definition register_rider (self : TaxiApp) (name : string) : Outcome Rider.t :=
  let rider := Rider.mk (_rider_id self) name in
  mkOutcome rider
    [[Str "Registered rider "; Str (Rider.name rider); Str " with ID ";
      Int (Rider.id rider)]]
    (mkApp (Dict.set (riders self) (_rider_id self) rider)
           (drivers self) (rides self)
           (_rider_id self + 1) (_driver_id self) (_ride_id self)).

Definition register_driver (self : TaxiApp) (name : string) (x y : float)
  : Outcome Driver.t :=
  let driver := Driver.mk (_driver_id self) name x y true in
  mkOutcome driver
    [[Str "Registered driver "; Str (Driver.name driver); Str " with ID ";
      Int (Driver.id driver); Str " at location ("; Flt x; Str ", "; Flt y;
      Str ")"]]
    (mkApp (riders self)
           (Dict.set (drivers self) (_driver_id self) driver)
           (rides self)
           (_rider_id self) (_driver_id self + 1) (_ride_id self)).

(** [complete_ride] returns [None] on every path: its value is [tt]. *)
Definition complete_ride (self : TaxiApp) (ride_id : Z) : Outcome unit :=
  match Dict.get (rides self) ride_id with
  | None => mkOutcome tt [msg_ride_not_found] self
  | Some ride =>
      if Ride.completed ride then
        mkOutcome tt [msg_ride_already_completed] self
      else
        mkOutcome tt
          [[Str "Ride "; Int (Ride.id ride); Str " completed. Fare was ";
            Flt (Ride.fare ride)]]
          (mkApp (riders self)
                 (Dict.modify (drivers self) (Ride.driver ride)
                    (Driver.release (Ride.dest_x ride) (Ride.dest_y ride)))
                 (Dict.modify (rides self) ride_id (Ride.set_completed true))
                 (_rider_id self) (_driver_id self) (_ride_id self))
  end.

(** [ride.driver.name]: the name read through the ride's reference.  The
    reference of a stored ride is never dangling ([wf_live]), the
    empty name stands for a case that does not arise. *)
Definition driver_name (self : TaxiApp) (ref : DriverRef) : string :=
  match Dict.get (drivers self) ref with
  | Some d => Driver.name d
  | None => EmptyString
  end.

Definition status_of (ride : Ride.t) : string :=
  if Ride.completed ride then "completed" else "active".

Definition ride_line (self : TaxiApp) (ride : Ride.t) : Line :=
  [Str "Ride "; Int (Ride.id ride); Str " ("; Str (status_of ride);
   Str "): Rider "; Str (Rider.name (Ride.rider ride)); Str " -> Driver ";
   Str (driver_name self (Ride.driver ride))].

Definition list_rides (self : TaxiApp) : Outcome unit :=
  mkOutcome tt (map (ride_line self) (Dict.values (rides self))) self.

(** ** Reference instances of the two library functions

    Used where a concrete run is evaluated.  [hypot_ref] is the Euclidean
    norm with the IEEE 754 rule that an infinite argument gives [+inf];
    [round2_ref] rounds the exact value of a finite double to the nearest
    multiple of 1/100, ties to even, and returns the double nearest to it,
    as [round(x, 2)] does; zeros, infinities and NaN round to themselves. *)

Definition is_inf (f : float) : bool :=
  match Prim2SF f with
  | S754_infinity _ => true
  | _ => false
  end.

Definition hypot_ref (a b : float) : float :=
  if is_inf a || is_inf b then infinity
  else PrimFloat.sqrt (a * a + b * b)%float.

(** [n / d] rounded to the nearest integer, ties to even ([0 < d]). *)
Definition div_half_even (n d : Z) : Z :=
  let q := n / d in
  let r := n mod d in
  match 2 * r ?= d with
  | Lt => q
  | Gt => q + 1
  | Eq => if Z.even q then q else q + 1
  end.

Definition round2_ref (f : float) : float :=
  match Prim2SF f with
  | S754_finite s m e =>
      if 0 <=? e then f
      else
        match div_half_even (100 * Zpos m) (2 ^ (- e)) with
        | Zpos k =>
            SF2Prim (SFdiv prec emax (S754_finite s k 0)
                                     (S754_finite false 100 0))
        | _ => SF2Prim (S754_zero s)
        end
  | _ => f
  end.

(** ** Operations that depend on the library functions *)

Section Dispatch.

(** [math.hypot] and [fun v => round(v, 2)] *)
Variable hypot : float -> float -> float.
Variable round2 : float -> float.

(** [math.hypot(driver.x - x, driver.y - y)] *)
Definition dist_to (x y : float) (driver : Driver.t) : float :=
  hypot (Driver.x driver - x)%float (Driver.y driver - y)%float.

(** One turn of the loop of [_find_closest_driver] over
    [(closest, closest_dist)]; [closest] is the reference together with
    the object it points to. *)
Definition closest_step (x y : float)
    (acc : option (DriverRef * Driver.t) * float)
    (entry : DriverRef * Driver.t)
  : option (DriverRef * Driver.t) * float :=
  if negb (Driver.available (snd entry)) then acc
  else
    let dist := dist_to x y (snd entry) in
    if (dist <? snd acc)%float then (Some entry, dist) else acc.

Definition _find_closest_driver (self : TaxiApp) (x y : float)
  : option (DriverRef * Driver.t) :=
  fst (fold_left (closest_step x y) (drivers self) (None, infinity)).

(** [round(250 + distance * 100, 2)] *)
Definition fare_of (start_x start_y dest_x dest_y : float) : float :=
  let distance := hypot (dest_x - start_x)%float (dest_y - start_y)%float in
  round2 (250 + distance * 100)%float.

Definition request_ride (self : TaxiApp) (rider_id : Z)
    (start_x start_y dest_x dest_y : float) : Outcome (option Ride.t) :=
  match Dict.get (riders self) rider_id with
  | None => mkOutcome None [msg_rider_not_found] self
  | Some rider =>
      match _find_closest_driver self start_x start_y with
      | None => mkOutcome None [msg_no_available_drivers] self
      | Some (ref, driver) =>
          let fare := fare_of start_x start_y dest_x dest_y in
          let ride :=
            Ride.mk (_ride_id self) rider ref start_x start_y dest_x dest_y
                    fare false in
          mkOutcome (Some ride)
            [[Str "Ride "; Int (Ride.id ride); Str " started with driver ";
              Str (Driver.name driver); Str ". Fare will be "; Flt fare]]
            (mkApp (riders self)
                   (Dict.modify (drivers self) ref
                      (Driver.set_available false))
                   (Dict.set (rides self) (_ride_id self) ride)
                   (_rider_id self) (_driver_id self) (_ride_id self + 1))
      end
  end.

(** The calls a client of the core can make. *)
Inductive Op : Type :=
| RegisterRider (name : string)
| RegisterDriver (name : string) (x y : float)
| RequestRide (rider_id : Z) (start_x start_y dest_x dest_y : float)
| CompleteRide (ride_id : Z)
| ListRides.

Definition step (self : TaxiApp) (op : Op) : TaxiApp :=
  match op with
  | RegisterRider name => after (register_rider self name)
  | RegisterDriver name x y => after (register_driver self name x y)
  | RequestRide rider_id sx sy dx dy =>
      after (request_ride self rider_id sx sy dx dy)
  | CompleteRide ride_id => after (complete_ride self ride_id)
  | ListRides => after (list_rides self)
  end.

Definition run (self : TaxiApp) (ops : list Op) : TaxiApp :=
  fold_left step ops self.

(** The states the application can be in. *)
Inductive reachable : TaxiApp -> Prop :=
| reachable_init : reachable init
| reachable_step self op : reachable self -> reachable (step self op).

End Dispatch.

(** ** The command line: [main]

    [main] reads lines from standard input and prints to standard
    output.  The input is the list of the lines still to be read; every
    [print] and every prompt of [input] is a line of the output.  [input]
    at the end of the input raises [EOFError], [int] and [float] raise
    [ValueError] on a line they cannot read; [main] catches neither, so
    each ends the session, like the choice 6.  [int] and [float] on
    strings belong to the Python library: the model takes them as
    parameters, [None] standing for [ValueError]. *)

Inductive Exit : Type :=
| Quit
| EOFError
| ValueError.

(** A finished session: how it ended, what it printed and the state of
    the application at that point. *)
Record Session : Type := mkSession {
  exit : Exit;
  output : list Line;
  final : TaxiApp
}.

(** The session [s], after [lines] were printed. *)
Definition say (lines : list Line) (s : Session) : Session :=
  mkSession (exit s) (lines ++ output s) (final s).

(** An exception, or the [break], in state [app]. *)
Definition halt (e : Exit) (app : TaxiApp) : Session := mkSession e [] app.

(** [input(prompt)], the session going on with the line read and the
    lines left. *)
Definition input (prompt : string) (inputs : list string) (app : TaxiApp)
    (k : string -> list string -> Session) : Session :=
  say [[Str prompt]]
    match inputs with
    | [] => halt EOFError app
    | line :: rest => k line rest
    end.

(** [int(line)] or [float(line)], the session going on with the number. *)
Definition parsed {A : Type} (number : option A) (app : TaxiApp)
    (k : A -> Session) : Session :=
  match number with
  | None => halt ValueError app
  | Some n => k n
  end.

Definition newline : string := String "010"%char EmptyString.

Definition menu : list Line :=
  [[Str (newline ++ "--- Taxi App ---")];
   [Str "1. Register rider"];
   [Str "2. Register driver"];
   [Str "3. Request ride"];
   [Str "4. Complete ride"];
   [Str "5. List rides"];
   [Str "6. Quit"]].

Definition msg_invalid_choice : Line := [Str "Invalid choice"].

Section CommandLine.

Variable hypot : float -> float -> float.
Variable round2 : float -> float.

(** [int] and [float] on a line of input *)
Variable int_of_str : string -> option Z.
Variable float_of_str : string -> option float.

(** One turn of [while True:] in [main]; [loop] is the next turn. *)
Definition main_body (loop : TaxiApp -> list string -> Session)
    (app : TaxiApp) (inputs : list string) : Session :=
  say menu
    (input "Choose an option: " inputs app (fun choice rest =>
       if (choice =? "1")%string then
         input "Rider name: " rest app (fun name rest =>
           let o := register_rider app name in
           say (printed o) (loop (after o) rest))
       else if (choice =? "2")%string then
         input "Driver name: " rest app (fun name rest =>
         input "Driver start X: " rest app (fun sx rest =>
         parsed (float_of_str sx) app (fun x =>
         input "Driver start Y: " rest app (fun sy rest =>
         parsed (float_of_str sy) app (fun y =>
           let o := register_driver app name x y in
           say (printed o) (loop (after o) rest))))))
       else if (choice =? "3")%string then
         input "Rider ID: " rest app (fun sid rest =>
         parsed (int_of_str sid) app (fun rider_id =>
         input "Start X: " rest app (fun s1 rest =>
         parsed (float_of_str s1) app (fun sx =>
         input "Start Y: " rest app (fun s2 rest =>
         parsed (float_of_str s2) app (fun sy =>
         input "Destination X: " rest app (fun s3 rest =>
         parsed (float_of_str s3) app (fun dx =>
         input "Destination Y: " rest app (fun s4 rest =>
         parsed (float_of_str s4) app (fun dy =>
           let o := request_ride hypot round2 app rider_id sx sy dx dy in
           say (printed o) (loop (after o) rest)))))))))))
       else if (choice =? "4")%string then
         input "Ride ID: " rest app (fun sid rest =>
         parsed (int_of_str sid) app (fun ride_id =>
           let o := complete_ride app ride_id in
           say (printed o) (loop (after o) rest)))
       else if (choice =? "5")%string then
         let o := list_rides app in
         say (printed o) (loop (after o) rest)
       else if (choice =? "6")%string then
         halt Quit app
       else
         say [msg_invalid_choice] (loop app rest))).

(** The loop of [main]: every turn reads at least its choice. *)
Fixpoint main_loop (app : TaxiApp) (inputs : list string) {struct inputs}
  : Session :=
  main_body main_loop app inputs.

(** [main]: the loop on a new [TaxiApp]. *)
Definition main (inputs : list string) : Session := main_loop init inputs.

(** The lines a user types to make one call of the core. *)
Inductive types_op : list string -> Op -> Prop :=
| types_register_rider name :
    types_op ["1"%string; name] (RegisterRider name)
| types_register_driver name sx sy x y :
    float_of_str sx = Some x -> float_of_str sy = Some y ->
    types_op ["2"%string; name; sx; sy] (RegisterDriver name x y)
| types_request_ride sid s1 s2 s3 s4 rider_id sx sy dx dy :
    int_of_str sid = Some rider_id ->
    float_of_str s1 = Some sx -> float_of_str s2 = Some sy ->
    float_of_str s3 = Some dx -> float_of_str s4 = Some dy ->
    types_op ["3"%string; sid; s1; s2; s3; s4]
             (RequestRide rider_id sx sy dx dy)
| types_complete_ride sid ride_id :
    int_of_str sid = Some ride_id ->
    types_op ["4"%string; sid] (CompleteRide ride_id)
| types_list_rides :
    types_op ["5"%string] ListRides.

End CommandLine.

(** ** Reference instances of [int] and [float] on strings

    Used where a concrete session is evaluated: they read the non-empty
    strings of decimal digits, on which they agree with [int] and, up to
    2^53, with [float]; every other string is refused. *)

Definition digit_of (c : ascii) : option Z :=
  let n := Z.of_nat (nat_of_ascii c) in
  if (48 <=? n) && (n <=? 57) then Some (n - 48) else None.

Fixpoint digits (s : string) (acc : Z) : option Z :=
  match s with
  | EmptyString => Some acc
  | String c s' =>
      match digit_of c with
      | Some d => digits s' (10 * acc + d)
      | None => None
      end
  end.

Definition int_ref (s : string) : option Z :=
  match s with
  | EmptyString => None
  | _ => digits s 0
  end.

Definition float_ref (s : string) : option float :=
  match int_ref s with
  | Some n =>
      if n <=? 2 ^ 53 then Some (SF2Prim (binary_normalize prec emax n 0 false))
      else None
  | None => None
  end.

(** ** Concrete runs, with the reference instances *)

Module Examples.

Definition run_ref : TaxiApp -> list Op -> TaxiApp :=
  run hypot_ref round2_ref.

Definition request_ref :
  TaxiApp -> Z -> float -> float -> float -> float -> Outcome (option Ride.t) :=
  request_ride hypot_ref round2_ref.

(** One rider, no driver. *)
Definition one_rider : TaxiApp := run_ref init [RegisterRider "ann"].

(** One rider, available drivers at (0,0) and (10,10). *)
Definition two_drivers_ops : list Op :=
  [RegisterRider "ann"; RegisterDriver "near" 0 0;
   RegisterDriver "far" 10 10].

Definition two_drivers : TaxiApp := run_ref init two_drivers_ops.

(** The same, after the rider has asked for a ride from (1,1) to (5,5). *)
Definition one_ride_ops : list Op :=
  two_drivers_ops ++ [RequestRide 1 1 1 5 5].

Definition one_ride : TaxiApp := run_ref init one_ride_ops.

(** One rider, available drivers at (0,100) and at (1,0). *)
Definition skew_drivers_ops : list Op :=
  [RegisterRider "ann"; RegisterDriver "north" 0 100;
   RegisterDriver "east" 1 0].

Definition skew_drivers : TaxiApp := run_ref init skew_drivers_ops.

(** One rider and one available driver, at (2^1023, 0); the double
    2^1023 is what Python reads from [8.98846567431158e307]. *)
Definition far_driver : TaxiApp :=
  run_ref init [RegisterRider "ann"; RegisterDriver "far" 0x1p1023 0].

End Examples.

(** ** Invariants *)

(** The ids [1; 2; ...; n]. *)
Definition iota (n : nat) : list Z := map Z.of_nat (seq 1 n).

(** A dict filled by a counter: its keys are [1 .. n] in insertion order,
    the counter is at [n + 1], and each object carries its key as id. *)
Record dict_ok {V : Type} (id_of : V -> Z) (d : Dict.t V) (next : Z)
  : Prop := mk_dict_ok {
  keys_iota : Dict.keys d = iota (List.length d);
  next_id : next = Z.of_nat (List.length d) + 1;
  id_is_key : forall k v, Dict.get d k = Some v -> id_of v = k
}.

Record wf (self : TaxiApp) : Prop := mk_wf {
  wf_riders : dict_ok Rider.id (riders self) (_rider_id self);
  wf_drivers : dict_ok Driver.id (drivers self) (_driver_id self);
  wf_rides : dict_ok Ride.id (rides self) (_ride_id self);
  (** the driver reference of a ride is live *)
  wf_live : forall k r, Dict.get (rides self) k = Some r ->
    exists d, Dict.get (drivers self) (Ride.driver r) = Some d;
  (** the driver of an active ride is unavailable *)
  wf_busy : forall k r, Dict.get (rides self) k = Some r ->
    Ride.completed r = false ->
    exists d, Dict.get (drivers self) (Ride.driver r) = Some d /\
              Driver.available d = false;
  (** no two active rides share a driver *)
  wf_excl : forall k1 r1 k2 r2,
    Dict.get (rides self) k1 = Some r1 -> Dict.get (rides self) k2 = Some r2 ->
    Ride.completed r1 = false -> Ride.completed r2 = false ->
    Ride.driver r1 = Ride.driver r2 -> k1 = k2
}.

Section LoopInvariant.

Variable hypot : float -> float -> float.

(** What the loop of [_find_closest_driver] knows after the entries
    [seen]: with nothing chosen, no available driver seen is below the
    initial [inf]; with [c] chosen, [closest_dist] is its distance, no
    available driver seen is strictly nearer, and none seen before [c] is
    at an equal distance. *)
Definition closest_inv (x y : float) (seen : Dict.t Driver.t)
    (acc : option (DriverRef * Driver.t) * float) : Prop :=
  match fst acc with
  | None =>
      snd acc = infinity /\
      forall e, In e seen -> Driver.available (snd e) = true ->
        (dist_to hypot x y (snd e) <? infinity)%float = false
  | Some c =>
      snd acc = dist_to hypot x y (snd c) /\
      Driver.available (snd c) = true /\
      (dist_to hypot x y (snd c) <? infinity)%float = true /\
      (forall e, In e seen -> Driver.available (snd e) = true ->
         (dist_to hypot x y (snd e) <? dist_to hypot x y (snd c))%float
         = false) /\
      exists before rest,
        seen = before ++ c :: rest /\
        forall e, In e before -> Driver.available (snd e) = true ->
          (dist_to hypot x y (snd e) =? dist_to hypot x y (snd c))%float
          = false
  end.

End LoopInvariant.

(** * Proofs *)

(** ** The order of binary64 numbers

    [<] on doubles is a strict partial order (a NaN is comparable with
    nothing), and [==] is a congruence for it. *)

Module PyFloat.

Ltac cmp_cases :=
  repeat match goal with
  | |- context [PosDef.Pos.compare_cont Eq ?a ?b] =>
      change (PosDef.Pos.compare_cont Eq a b) with (Pos.compare a b)
  | H : context [PosDef.Pos.compare_cont Eq ?a ?b] |- _ =>
      change (PosDef.Pos.compare_cont Eq a b) with (Pos.compare a b) in H
  | |- context [(?a ?= ?b)%Z] => destruct (Z.compare_spec a b); subst
  | H : context [(?a ?= ?b)%Z] |- _ => destruct (Z.compare_spec a b); subst
  | |- context [(?a ?= ?b)%positive] =>
      destruct (Pos.compare_spec a b); subst
  | H : context [(?a ?= ?b)%positive] |- _ =>
      destruct (Pos.compare_spec a b); subst
  end.

Lemma SFltb_irrefl (a : spec_float) : SFltb a a = false.
Proof.
  unfold SFltb, SFcompare.
  destruct a as [s|s| |s m e]; try destruct s; try reflexivity;
    cmp_cases; try reflexivity; lia.
Qed.

Lemma SFltb_trans (a b c : spec_float) :
  SFltb a b = true -> SFltb b c = true -> SFltb a c = true.
Proof.
  unfold SFltb, SFcompare.
  destruct a as [sa|sa| |sa ma ea], b as [sb|sb| |sb mb eb],
           c as [sc|sc| |sc mc ec];
    try destruct sa; try destruct sb; try destruct sc;
    try discriminate; try reflexivity;
    intros Hab Hbc;
    cmp_cases; simpl in *; try discriminate; try reflexivity; lia.
Qed.

Lemma SFeqb_ltb (a b c : spec_float) :
  SFeqb a b = true -> SFltb a c = SFltb b c.
Proof.
  unfold SFeqb, SFltb, SFcompare.
  destruct a as [sa|sa| |sa ma ea], b as [sb|sb| |sb mb eb],
           c as [sc|sc| |sc mc ec];
    try destruct sa; try destruct sb; try destruct sc;
    try discriminate; try reflexivity;
    intros Hab;
    cmp_cases; simpl in *; try discriminate; try reflexivity; lia.
Qed.

(** Two numbers that are not NaN are comparable. *)
Lemma SFltb_false_leb (a b : spec_float) :
  SFltb a b = false -> SFeqb a a = true -> SFeqb b b = true ->
  SFleb b a = true.
Proof.
  unfold SFeqb, SFltb, SFleb, SFcompare.
  destruct a as [sa|sa| |sa ma ea], b as [sb|sb| |sb mb eb];
    try destruct sa; try destruct sb;
    try discriminate; try reflexivity;
    intros Hab _ _;
    cmp_cases; simpl in *; try discriminate; try reflexivity; lia.
Qed.

Lemma ltb_irrefl (a : float) : (a <? a)%float = false.
Proof. rewrite ltb_spec. apply SFltb_irrefl. Qed.

Lemma ltb_trans (a b c : float) :
  (a <? b)%float = true -> (b <? c)%float = true -> (a <? c)%float = true.
Proof. rewrite !ltb_spec. apply SFltb_trans. Qed.

Lemma eqb_ltb (a b c : float) :
  (a =? b)%float = true -> (a <? c)%float = (b <? c)%float.
Proof. rewrite eqb_spec, !ltb_spec. apply SFeqb_ltb. Qed.

Lemma ltb_false_leb (a b : float) :
  (a <? b)%float = false -> (a =? a)%float = true ->
  (b =? b)%float = true -> (b <=? a)%float = true.
Proof. rewrite ltb_spec, !eqb_spec, leb_spec. apply SFltb_false_leb. Qed.

(** What is below [inf] is not NaN. *)
Lemma ltb_not_nan (a b : float) :
  (a <? b)%float = true -> (a =? a)%float = true.
Proof.
  rewrite ltb_spec, eqb_spec. unfold SFltb, SFeqb, SFcompare.
  destruct (Prim2SF a) as [sa|sa| |sa ma ea], (Prim2SF b) as [sb|sb| |sb mb eb];
    try destruct sa; try destruct sb;
    try discriminate; try reflexivity; intros _;
    cmp_cases; simpl in *; try discriminate; try reflexivity; lia.
Qed.

(** Nothing below the running minimum stays nothing below a smaller one. *)
Lemma not_ltb_lower (a b c : float) :
  (a <? b)%float = false -> (c <? b)%float = true -> (a <? c)%float = false.
Proof.
  intros Hab Hcb. destruct (a <? c)%float eqn:Hac; [|reflexivity].
  rewrite (ltb_trans _ _ _ Hac Hcb) in Hab. discriminate.
Qed.

End PyFloat.

(** ** Dictionaries *)

Module DictFacts.
Section DictFacts.

Context {V : Type}.
Implicit Types (d : Dict.t V) (k : Z) (v : V).

Lemma get_set_eq d k v : Dict.get (Dict.set d k v) k = Some v.
Proof.
  induction d as [|[k' v'] d IH]; simpl.
  - now rewrite Z.eqb_refl.
  - destruct (k' =? k) eqn:E; simpl; rewrite E; auto.
Qed.

Lemma get_set_neq d k k' v :
  k <> k' -> Dict.get (Dict.set d k v) k' = Dict.get d k'.
Proof.
  intros Hne. induction d as [|[k0 v0] d IH]; simpl.
  - destruct (k =? k') eqn:E; [apply Z.eqb_eq in E; contradiction | reflexivity].
  - destruct (k0 =? k) eqn:E; simpl.
    + apply Z.eqb_eq in E; subst k0.
      destruct (k =? k') eqn:E'; [apply Z.eqb_eq in E'; contradiction | reflexivity].
    + now rewrite IH.
Qed.

Lemma get_modify_eq d k f :
  Dict.get (Dict.modify d k f) k = option_map f (Dict.get d k).
Proof.
  induction d as [|[k' v'] d IH]; simpl; [reflexivity|].
  destruct (k' =? k) eqn:E; simpl; rewrite E; auto.
Qed.

Lemma get_modify_neq d k k' f :
  k <> k' -> Dict.get (Dict.modify d k f) k' = Dict.get d k'.
Proof.
  intros Hne. induction d as [|[k0 v0] d IH]; simpl; [reflexivity|].
  destruct (k0 =? k) eqn:E; simpl.
  - apply Z.eqb_eq in E; subst k0.
    destruct (k =? k') eqn:E'; [apply Z.eqb_eq in E'; contradiction | reflexivity].
  - now rewrite IH.
Qed.

Lemma keys_modify d k f : Dict.keys (Dict.modify d k f) = Dict.keys d.
Proof.
  induction d as [|[k' v'] d IH]; simpl; [reflexivity|].
  destruct (k' =? k); simpl; [reflexivity | now f_equal].
Qed.

Lemma length_modify d k f :
  List.length (Dict.modify d k f) = List.length d.
Proof.
  rewrite <- (length_map fst (Dict.modify d k f)), <- (length_map fst d).
  f_equal. apply keys_modify.
Qed.

Lemma get_None_keys d k : Dict.get d k = None <-> ~ In k (Dict.keys d).
Proof.
  induction d as [|[k' v'] d IH]; simpl; [tauto|].
  destruct (k' =? k) eqn:E.
  - apply Z.eqb_eq in E. split; [discriminate | intros H; exfalso; auto].
  - apply Z.eqb_neq in E. rewrite IH. tauto.
Qed.

Lemma get_Some_In d k v : Dict.get d k = Some v -> In (k, v) d.
Proof.
  induction d as [|[k' v'] d IH]; simpl; [discriminate|].
  destruct (k' =? k) eqn:E.
  - apply Z.eqb_eq in E. intros [= ->]. subst. now left.
  - auto.
Qed.

Lemma In_get d k v :
  NoDup (Dict.keys d) -> In (k, v) d -> Dict.get d k = Some v.
Proof.
  induction d as [|[k' v'] d IH]; simpl; [tauto|].
  intros Hnd [[= -> ->]|Hin].
  - now rewrite Z.eqb_refl.
  - inversion Hnd as [|? ? Hnotin Hnd']; subst.
    destruct (k' =? k) eqn:E; [|auto].
    apply Z.eqb_eq in E; subst k'. exfalso. apply Hnotin.
    change k with (fst (k, v)). now apply in_map.
Qed.

(** Storing under a key that is not there appends. *)
Lemma set_fresh d k v : Dict.get d k = None -> Dict.set d k v = d ++ [(k, v)].
Proof.
  induction d as [|[k' v'] d IH]; simpl; [reflexivity|].
  destruct (k' =? k); [discriminate|]. intros H. now rewrite IH.
Qed.

End DictFacts.
End DictFacts.

(** ** The loop of [_find_closest_driver] *)

Section ClosestDriver.

Variable hypot : float -> float -> float.
Variables x y : float.

Local Abbreviation dist := (dist_to hypot x y).
Local Abbreviation inv := (closest_inv hypot x y).

Lemma closest_inv_nil : inv [] (None, infinity).
Proof. split; [reflexivity | intros e []]. Qed.

Lemma closest_inv_step seen acc e :
  inv seen acc -> inv (seen ++ [e]) (closest_step hypot x y acc e).
Proof.
  destruct acc as [[c|] cd]; unfold closest_inv, closest_step; simpl.
  - intros (-> & Hav & Hinf & Hmin & before & rest & -> & Htie).
    destruct (Driver.available (snd e)) eqn:Ea; simpl.
    + destruct (dist (snd e) <? dist (snd c))%float eqn:El; simpl.
      * repeat split; auto.
        { eapply PyFloat.ltb_trans; eauto. }
        { intros e' Hin Ha'. apply in_app_or in Hin as [Hin|[<-|[]]].
          - eapply PyFloat.not_ltb_lower; eauto.
          - apply PyFloat.ltb_irrefl. }
        { exists (before ++ c :: rest), []. split; [reflexivity|].
          intros e' Hin Ha'.
          destruct (dist (snd e') =? dist (snd e))%float eqn:Eq; auto.
          rewrite <- (PyFloat.eqb_ltb _ _ _ Eq) in El.
          rewrite (Hmin e' Hin Ha') in El. discriminate. }
      * repeat split; auto.
        { intros e' Hin Ha'. apply in_app_or in Hin as [Hin|[<-|[]]]; auto. }
        { exists before, (rest ++ [e]). split; [|exact Htie].
          now rewrite <- app_assoc. }
    + repeat split; auto.
      { intros e' Hin Ha'. apply in_app_or in Hin as [Hin|[<-|[]]]; auto.
        congruence. }
      { exists before, (rest ++ [e]). split; [|exact Htie].
        now rewrite <- app_assoc. }
  - intros (-> & Hnone).
    destruct (Driver.available (snd e)) eqn:Ea; simpl.
    + destruct (dist (snd e) <? infinity)%float eqn:El; simpl.
      * repeat split; auto.
        { intros e' Hin Ha'. apply in_app_or in Hin as [Hin|[<-|[]]].
          - eapply PyFloat.not_ltb_lower; eauto.
          - apply PyFloat.ltb_irrefl. }
        { exists seen, []. split; [reflexivity|].
          intros e' Hin Ha'.
          destruct (dist (snd e') =? dist (snd e))%float eqn:Eq; auto.
          rewrite <- (PyFloat.eqb_ltb _ _ _ Eq) in El.
          rewrite (Hnone e' Hin Ha') in El. discriminate. }
      * split; auto.
        intros e' Hin Ha'. apply in_app_or in Hin as [Hin|[<-|[]]]; auto.
    + split; auto.
      intros e' Hin Ha'. apply in_app_or in Hin as [Hin|[<-|[]]]; auto.
      congruence.
Qed.

Lemma closest_inv_fold rest seen acc :
  inv seen acc ->
  inv (seen ++ rest) (fold_left (closest_step hypot x y) rest acc).
Proof.
  revert seen acc. induction rest as [|e rest IH]; intros seen acc H; simpl.
  - now rewrite app_nil_r.
  - replace (seen ++ e :: rest) with ((seen ++ [e]) ++ rest)
      by now rewrite <- app_assoc.
    apply IH, closest_inv_step, H.
Qed.

Lemma find_closest_inv self :
  inv (drivers self)
      (fold_left (closest_step hypot x y) (drivers self) (None, infinity)).
Proof. apply (closest_inv_fold (drivers self) []), closest_inv_nil. Qed.

(** A chosen driver is an available entry of the dict below [inf], no
    available driver is strictly nearer, and none before it is as near. *)
Lemma find_closest_Some self c :
  _find_closest_driver hypot self x y = Some c ->
  Driver.available (snd c) = true /\
  (dist (snd c) <? infinity)%float = true /\
  (forall e, In e (drivers self) -> Driver.available (snd e) = true ->
     (dist (snd e) <? dist (snd c))%float = false) /\
  exists before rest,
    drivers self = before ++ c :: rest /\
    forall e, In e before -> Driver.available (snd e) = true ->
      (dist (snd e) =? dist (snd c))%float = false.
Proof.
  unfold _find_closest_driver. intros H.
  pose proof (find_closest_inv self) as I. unfold closest_inv in I.
  rewrite H in I. tauto.
Qed.

(** Nothing is chosen exactly when no available driver is below [inf]. *)
Lemma find_closest_None self :
  _find_closest_driver hypot self x y = None ->
  forall e, In e (drivers self) -> Driver.available (snd e) = true ->
    (dist (snd e) <? infinity)%float = false.
Proof.
  unfold _find_closest_driver. intros H.
  pose proof (find_closest_inv self) as I. unfold closest_inv in I.
  rewrite H in I. tauto.
Qed.

End ClosestDriver.

(** ** Dicts filled by a counter *)

Section Counters.

Lemma iota_S n : iota (S n) = iota n ++ [Z.of_nat n + 1].
Proof.
  unfold iota. rewrite seq_S, map_app. simpl. do 2 f_equal. lia.
Qed.

Lemma In_iota k n : In k (iota n) <-> 1 <= k <= Z.of_nat n.
Proof.
  unfold iota. rewrite in_map_iff. split.
  - intros (i & <- & Hi). apply in_seq in Hi. lia.
  - intros H. exists (Z.to_nat k). split; [lia|]. apply in_seq. lia.
Qed.

Lemma seq_sorted s n : StronglySorted Z.lt (map Z.of_nat (seq s n)).
Proof.
  revert s. induction n as [|n IH]; intros s; simpl; constructor.
  - apply IH.
  - apply Forall_forall. intros k Hk. apply in_map_iff in Hk as (i & <- & Hi).
    apply in_seq in Hi. lia.
Qed.

Lemma iota_sorted n : StronglySorted Z.lt (iota n).
Proof. apply seq_sorted. Qed.

Lemma sorted_after (l1 l2 : list Z) k :
  StronglySorted Z.lt (l1 ++ k :: l2) -> Forall (Z.lt k) l2.
Proof.
  induction l1 as [|a l1 IH]; simpl; intros H; inversion H; subst; auto.
Qed.

Lemma sorted_NoDup (l : list Z) : StronglySorted Z.lt l -> NoDup l.
Proof.
  induction 1 as [|a l Hs IH Hall]; constructor; auto.
  intros Hin. rewrite Forall_forall in Hall. specialize (Hall a Hin). lia.
Qed.

Context {V : Type} (id_of : V -> Z).
Implicit Types (d : Dict.t V) (k next : Z) (v : V).

Lemma dict_ok_nil : dict_ok id_of [] 1.
Proof. split; [reflexivity | reflexivity | discriminate]. Qed.

Lemma dict_ok_NoDup d next : dict_ok id_of d next -> NoDup (Dict.keys d).
Proof. intros [Hk _ _]. rewrite Hk. apply sorted_NoDup, iota_sorted. Qed.

Lemma dict_ok_range d next k v :
  dict_ok id_of d next -> Dict.get d k = Some v -> 1 <= k < next.
Proof.
  intros [Hk Hn _] Hg. apply DictFacts.get_Some_In in Hg.
  assert (Hin : In k (Dict.keys d))
    by (change k with (fst (k, v)); now apply in_map).
  rewrite Hk in Hin. apply In_iota in Hin. lia.
Qed.

Lemma dict_ok_fresh d next : dict_ok id_of d next -> Dict.get d next = None.
Proof.
  intros H. destruct (Dict.get d next) as [v|] eqn:E; [|reflexivity].
  pose proof (dict_ok_range _ _ _ _ H E). lia.
Qed.

Lemma dict_ok_set d next v :
  dict_ok id_of d next -> id_of v = next ->
  dict_ok id_of (Dict.set d next v) (next + 1).
Proof.
  intros H Hid. pose proof (dict_ok_fresh _ _ H) as Hf.
  destruct H as [Hk Hn Hi]. rewrite (DictFacts.set_fresh _ _ _ Hf).
  split.
  - unfold Dict.keys in *. rewrite map_app, length_app, Hk. simpl.
    rewrite Nat.add_1_r, iota_S. do 2 f_equal. lia.
  - rewrite length_app. simpl. lia.
  - intros k v'. rewrite <- (DictFacts.set_fresh _ _ _ Hf).
    destruct (Z.eq_dec next k) as [<-|Hne].
    + rewrite DictFacts.get_set_eq. now intros [= <-].
    + rewrite DictFacts.get_set_neq by assumption. apply Hi.
Qed.

Lemma dict_ok_modify d next k f :
  dict_ok id_of d next -> (forall v, id_of (f v) = id_of v) ->
  dict_ok id_of (Dict.modify d k f) next.
Proof.
  intros [Hk Hn Hi] Hf. split.
  - now rewrite DictFacts.keys_modify, DictFacts.length_modify.
  - now rewrite DictFacts.length_modify.
  - intros k' v'. destruct (Z.eq_dec k k') as [<-|Hne].
    + rewrite DictFacts.get_modify_eq.
      destruct (Dict.get d k) as [v|] eqn:E; simpl; [|discriminate].
      intros [= <-]. rewrite Hf. now apply Hi.
    + rewrite DictFacts.get_modify_neq by assumption. apply Hi.
Qed.

(** The ids of the stored objects, in iteration order, are [1 .. n]. *)
Lemma dict_ok_ids d next :
  dict_ok id_of d next -> map id_of (Dict.values d) = iota (List.length d).
Proof.
  intros H. pose proof (dict_ok_NoDup _ _ H) as Hnd.
  destruct H as [Hk _ Hi]. rewrite <- Hk.
  unfold Dict.values, Dict.keys. rewrite map_map.
  apply map_ext_in. intros [k v] Hin. simpl.
  apply Hi. now apply DictFacts.In_get.
Qed.

End Counters.

(** ** Every reachable state is well formed *)

Section WellFormed.

Variable hypot : float -> float -> float.
Variable round2 : float -> float.

Lemma wf_init : wf init.
Proof.
  split; try apply dict_ok_nil; simpl; intros; discriminate.
Qed.

Lemma wf_register_rider self name :
  wf self -> wf (after (register_rider self name)).
Proof.
  intros [Hr Hd Hrd Hl Hb He]. split; simpl; auto.
  now apply dict_ok_set.
Qed.

Lemma wf_register_driver self name x y :
  wf self -> wf (after (register_driver self name x y)).
Proof.
  intros [Hr Hd Hrd Hl Hb He].
  pose proof (dict_ok_fresh _ _ _ Hd) as Hf.
  assert (Hkeep : forall k d, Dict.get (drivers self) k = Some d ->
            Dict.get (Dict.set (drivers self) (_driver_id self)
                        (Driver.mk (_driver_id self) name x y true)) k
            = Some d).
  { intros k d Hg. rewrite DictFacts.get_set_neq; [exact Hg|].
    intros Heq. rewrite <- Heq in Hg. congruence. }
  split; simpl; auto.
  - now apply dict_ok_set.
  - intros k r Hg. destruct (Hl k r Hg) as (d & Hd'). eauto.
  - intros k r Hg Hc. destruct (Hb k r Hg Hc) as (d & Hd' & Ha). eauto.
Qed.

(** The driver chosen by the loop, seen through the dict. *)
Lemma find_closest_get self x y ref driver :
  wf self ->
  _find_closest_driver hypot self x y = Some (ref, driver) ->
  Dict.get (drivers self) ref = Some driver /\
  Driver.available driver = true.
Proof.
  intros Hwf H.
  apply find_closest_Some in H as (Ha & _ & _ & before & rest & Heq & _).
  split; [|exact Ha].
  apply DictFacts.In_get.
  - eapply dict_ok_NoDup, wf_drivers, Hwf.
  - rewrite Heq. apply in_or_app. right. now left.
Qed.

Lemma wf_request_ride self rider_id sx sy dx dy :
  wf self -> wf (after (request_ride hypot round2 self rider_id sx sy dx dy)).
Proof.
  intros Hwf. unfold request_ride.
  destruct (Dict.get (riders self) rider_id) as [rider|]; [|exact Hwf].
  destruct (_find_closest_driver hypot self sx sy) as [[ref driver]|] eqn:Ef;
    [|exact Hwf].
  destruct (find_closest_get _ _ _ _ _ Hwf Ef) as [Hget Hav].
  destruct Hwf as [Hr Hd Hrd Hl Hb He].
  pose proof (dict_ok_fresh _ _ _ Hrd) as Hf.
  set (ride := Ride.mk _ _ _ _ _ _ _ _ _).
  assert (Hold : forall k r,
            Dict.get (Dict.set (rides self) (_ride_id self) ride) k = Some r ->
            (k = _ride_id self /\ r = ride) \/
            (k <> _ride_id self /\ Dict.get (rides self) k = Some r)).
  { intros k r. destruct (Z.eq_dec (_ride_id self) k) as [<-|Hne].
    - rewrite DictFacts.get_set_eq. intros [= <-]. now left.
    - rewrite DictFacts.get_set_neq by assumption. right. split; auto. }
  assert (Hdrv : forall k d, Dict.get (drivers self) k = Some d ->
            exists d', Dict.get (Dict.modify (drivers self) ref
                                   (Driver.set_available false)) k = Some d' /\
                       (Driver.available d = false ->
                        Driver.available d' = false)).
  { intros k d Hg. destruct (Z.eq_dec ref k) as [<-|Hne].
    - rewrite DictFacts.get_modify_eq, Hg. simpl. eauto.
    - rewrite DictFacts.get_modify_neq by assumption. eauto. }
  split; simpl; auto.
  - apply dict_ok_modify; auto.
  - apply dict_ok_set; auto.
  - intros k r Hg. apply Hold in Hg as [[-> ->]|[Hne Hg]].
    + simpl. destruct (Hdrv _ _ Hget) as (d' & Hd' & _). eauto.
    + destruct (Hl k r Hg) as (d & Hd').
      destruct (Hdrv _ _ Hd') as (d' & Hd'' & _). eauto.
  - intros k r Hg Hc. apply Hold in Hg as [[-> ->]|[Hne Hg]].
    + simpl. rewrite DictFacts.get_modify_eq, Hget. simpl. eauto.
    + destruct (Hb k r Hg Hc) as (d & Hd' & Ha).
      destruct (Hdrv _ _ Hd') as (d' & Hd'' & Ha'). eauto.
  - intros k1 r1 k2 r2 Hg1 Hg2 Hc1 Hc2 Hsame.
    apply Hold in Hg1 as [[-> ->]|[Hne1 Hg1]];
      apply Hold in Hg2 as [[-> ->]|[Hne2 Hg2]]; auto.
    + exfalso. simpl in Hsame.
      destruct (Hb k2 r2 Hg2 Hc2) as (d & Hd' & Ha). congruence.
    + exfalso. simpl in Hsame.
      destruct (Hb k1 r1 Hg1 Hc1) as (d & Hd' & Ha). congruence.
    + eapply He; eauto.
Qed.

Lemma wf_complete_ride self ride_id :
  wf self -> wf (after (complete_ride self ride_id)).
Proof.
  intros Hwf. unfold complete_ride.
  destruct (Dict.get (rides self) ride_id) as [ride|] eqn:Eg; [|exact Hwf].
  destruct (Ride.completed ride) eqn:Ec; [exact Hwf|].
  destruct Hwf as [Hr Hd Hrd Hl Hb He].
  assert (Hold : forall k r,
            Dict.get (Dict.modify (rides self) ride_id
                        (Ride.set_completed true)) k = Some r ->
            (k = ride_id /\ r = Ride.set_completed true ride) \/
            (k <> ride_id /\ Dict.get (rides self) k = Some r)).
  { intros k r. destruct (Z.eq_dec ride_id k) as [<-|Hne].
    - rewrite DictFacts.get_modify_eq, Eg. simpl. intros [= <-]. now left.
    - rewrite DictFacts.get_modify_neq by assumption. right. split; auto. }
  assert (Hdrv : forall k d, Dict.get (drivers self) k = Some d ->
            exists d', Dict.get (Dict.modify (drivers self) (Ride.driver ride)
                                   (Driver.release (Ride.dest_x ride)
                                                   (Ride.dest_y ride))) k
                       = Some d').
  { intros k d Hg. destruct (Z.eq_dec (Ride.driver ride) k) as [<-|Hne].
    - rewrite DictFacts.get_modify_eq, Hg. simpl. eauto.
    - rewrite DictFacts.get_modify_neq by assumption. eauto. }
  split; simpl; auto.
  - apply dict_ok_modify; auto.
  - apply dict_ok_modify; auto.
  - intros k r Hg. apply Hold in Hg as [[-> ->]|[Hne Hg]].
    + simpl. destruct (Hl _ _ Eg) as (d & Hd'). eauto.
    + destruct (Hl k r Hg) as (d & Hd'). eauto.
  - intros k r Hg Hc. apply Hold in Hg as [[-> ->]|[Hne Hg]];
      [discriminate|].
    destruct (Hb k r Hg Hc) as (d & Hd' & Ha).
    exists d. split; [|exact Ha].
    rewrite DictFacts.get_modify_neq; [exact Hd'|].
    intros Hsame. apply Hne. symmetry in Hsame. eapply He; eauto.
  - intros k1 r1 k2 r2 Hg1 Hg2 Hc1 Hc2 Hsame.
    apply Hold in Hg1 as [[-> ->]|[Hne1 Hg1]]; [discriminate|].
    apply Hold in Hg2 as [[-> ->]|[Hne2 Hg2]]; [discriminate|].
    eapply He; eauto.
Qed.

Lemma wf_step self op : wf self -> wf (step hypot round2 self op).
Proof.
  destruct op; simpl; intros H.
  - now apply wf_register_rider.
  - now apply wf_register_driver.
  - now apply wf_request_ride.
  - now apply wf_complete_ride.
  - exact H.
Qed.

Lemma reachable_wf self : reachable hypot round2 self -> wf self.
Proof. induction 1; [apply wf_init | now apply wf_step]. Qed.

Lemma reachable_run self ops :
  reachable hypot round2 self -> reachable hypot round2 (run hypot round2 self ops).
Proof.
  revert self. induction ops as [|op ops IH]; intros self H; simpl; auto.
  apply IH. now constructor.
Qed.

End WellFormed.

(** ** Requesting a ride *)

Section RequestRide.

Variable hypot : float -> float -> float.
Variable round2 : float -> float.

Local Abbreviation request := (request_ride hypot round2).
Local Abbreviation find := (_find_closest_driver hypot).

(** What a successful call has done. *)
Lemma request_ride_inv self rider_id sx sy dx dy ride :
  ret (request self rider_id sx sy dx dy) = Some ride ->
  exists rider ref driver,
    Dict.get (riders self) rider_id = Some rider /\
    find self sx sy = Some (ref, driver) /\
    ride = Ride.mk (_ride_id self) rider ref sx sy dx dy
             (fare_of hypot round2 sx sy dx dy) false /\
    printed (request self rider_id sx sy dx dy) =
      [[Str "Ride "; Int (_ride_id self); Str " started with driver ";
        Str (Driver.name driver); Str ". Fare will be ";
        Flt (Ride.fare ride)]] /\
    after (request self rider_id sx sy dx dy) =
      mkApp (riders self)
            (Dict.modify (drivers self) ref (Driver.set_available false))
            (Dict.set (rides self) (_ride_id self) ride)
            (_rider_id self) (_driver_id self) (_ride_id self + 1).
Proof.
  unfold request_ride.
  destruct (Dict.get (riders self) rider_id) as [rider|]; [|discriminate].
  destruct (find self sx sy) as [[ref driver]|]; [|discriminate].
  simpl. intros [= <-]. exists rider, ref, driver. auto.
Qed.

(** A failed call printed one of the two messages and changed nothing. *)
Lemma request_ride_None self rider_id sx sy dx dy :
  ret (request self rider_id sx sy dx dy) = None ->
  after (request self rider_id sx sy dx dy) = self /\
  ((Dict.get (riders self) rider_id = None /\
    printed (request self rider_id sx sy dx dy) = [msg_rider_not_found]) \/
   (Dict.get (riders self) rider_id <> None /\
    find self sx sy = None /\
    printed (request self rider_id sx sy dx dy) = [msg_no_available_drivers])).
Proof.
  unfold request_ride.
  destruct (Dict.get (riders self) rider_id) as [rider|]; [|auto].
  destruct (find self sx sy) as [[ref driver]|]; [discriminate|].
  simpl. intros _. split; auto. right. repeat split; auto. discriminate.
Qed.

(** Among the available drivers at the distance of the chosen one, the
    chosen one has the lowest key. *)
Lemma find_closest_first self x y ref driver k' d' :
  wf self ->
  find self x y = Some (ref, driver) ->
  Dict.get (drivers self) k' = Some d' ->
  Driver.available d' = true ->
  (dist_to hypot x y d' =? dist_to hypot x y driver)%float = true ->
  ref <= k'.
Proof.
  intros Hwf Hf Hg Ha Htie.
  apply find_closest_Some in Hf as (_ & _ & _ & before & rest & Heq & Hb).
  apply DictFacts.get_Some_In in Hg. rewrite Heq in Hg.
  apply in_app_or in Hg as [Hin|[[= -> ->]|Hin]].
  - specialize (Hb _ Hin Ha). simpl in Hb. congruence.
  - lia.
  - pose proof (keys_iota _ _ _ (wf_drivers _ Hwf)) as Hk.
    pose proof (iota_sorted (List.length (drivers self))) as Hs.
    rewrite <- Hk, Heq in Hs. unfold Dict.keys in Hs.
    rewrite map_app in Hs. simpl in Hs. apply sorted_after in Hs.
    rewrite Forall_forall in Hs.
    assert (ref < k'); [|lia]. apply Hs.
    change k' with (fst (k', d')). now apply in_map.
Qed.

(** The loop does not look at unavailable drivers. *)
Lemma fold_closest_filter x y l acc :
  fold_left (closest_step hypot x y) l acc =
  fold_left (closest_step hypot x y)
    (filter (fun e => Driver.available (snd e)) l) acc.
Proof.
  revert acc. induction l as [|e l IH]; intros acc; simpl; [reflexivity|].
  destruct (Driver.available (snd e)) eqn:Ea; simpl.
  - apply IH.
  - rewrite <- IH. unfold closest_step at 2. now rewrite Ea.
Qed.

Lemma sub_0_1 : (0 - 1 = -1)%float.
Proof. reflexivity. Qed.

Lemma sub_10_1 : (10 - 1 = 9)%float.
Proof. reflexivity. Qed.

(** With exactly two available drivers, at (0,0) and at (10,10), in
    either order, the one at (0,0) is chosen from (1,1). *)
Lemma find_closest_two self near far :
  (filter (fun e => Driver.available (snd e)) (drivers self) = [near; far] \/
   filter (fun e => Driver.available (snd e)) (drivers self) = [far; near]) ->
  Driver.x (snd near) = 0%float -> Driver.y (snd near) = 0%float ->
  Driver.x (snd far) = 10%float -> Driver.y (snd far) = 10%float ->
  (hypot (-1) (-1) <? hypot 9 9)%float = true ->
  (hypot 9 9 <? infinity)%float = true ->
  find self 1%float 1%float = Some near.
Proof.
  intros Hav Hnx Hny Hfx Hfy Hlt Hinf.
  assert (Hn : dist_to hypot 1 1 (snd near) = hypot (-1) (-1))
    by (unfold dist_to; now rewrite Hnx, Hny, sub_0_1).
  assert (Hf : dist_to hypot 1 1 (snd far) = hypot 9 9)
    by (unfold dist_to; now rewrite Hfx, Hfy, sub_10_1).
  assert (Han : Driver.available (snd near) = true).
  { assert (In near (filter (fun e => Driver.available (snd e)) (drivers self)))
      by (destruct Hav as [-> | ->]; simpl; auto).
    now apply filter_In in H. }
  assert (Haf : Driver.available (snd far) = true).
  { assert (In far (filter (fun e => Driver.available (snd e)) (drivers self)))
      by (destruct Hav as [-> | ->]; simpl; auto).
    now apply filter_In in H. }
  pose proof (PyFloat.ltb_trans _ _ _ Hlt Hinf) as Hninf.
  assert (Hgt : (hypot 9 9 <? hypot (-1) (-1))%float = false).
  { destruct (hypot 9 9 <? hypot (-1) (-1))%float eqn:E; [|reflexivity].
    pose proof (PyFloat.ltb_trans _ _ _ Hlt E) as Hc.
    now rewrite PyFloat.ltb_irrefl in Hc. }
  unfold _find_closest_driver. rewrite fold_closest_filter.
  destruct Hav as [-> | ->]; simpl; unfold closest_step; simpl;
    rewrite ?Han, ?Haf; simpl; rewrite ?Hn, ?Hf, ?Hninf, ?Hinf; simpl;
    rewrite ?Hn, ?Hf, ?Hgt, ?Hlt; reflexivity.
Qed.

End RequestRide.

(** ** The life of a ride *)

Section RideHistory.

Variable hypot : float -> float -> float.
Variable round2 : float -> float.

Local Abbreviation step' := (step hypot round2).
Local Abbreviation run' := (run hypot round2).

Lemma set_completed_done r :
  Ride.completed r = true -> Ride.set_completed true r = r.
Proof. destruct r; simpl; now intros ->. Qed.

Lemma complete_ride_active self ride_id ride :
  Dict.get (rides self) ride_id = Some ride ->
  Ride.completed ride = false ->
  complete_ride self ride_id =
    mkOutcome tt
      [[Str "Ride "; Int (Ride.id ride); Str " completed. Fare was ";
        Flt (Ride.fare ride)]]
      (mkApp (riders self)
             (Dict.modify (drivers self) (Ride.driver ride)
                (Driver.release (Ride.dest_x ride) (Ride.dest_y ride)))
             (Dict.modify (rides self) ride_id (Ride.set_completed true))
             (_rider_id self) (_driver_id self) (_ride_id self)).
Proof. intros Hg Hc. unfold complete_ride. now rewrite Hg, Hc. Qed.

Lemma complete_ride_done self ride_id ride :
  Dict.get (rides self) ride_id = Some ride ->
  Ride.completed ride = true ->
  complete_ride self ride_id = mkOutcome tt [msg_ride_already_completed] self.
Proof. intros Hg Hc. unfold complete_ride. now rewrite Hg, Hc. Qed.

Lemma complete_ride_missing self ride_id :
  Dict.get (rides self) ride_id = None ->
  complete_ride self ride_id = mkOutcome tt [msg_ride_not_found] self.
Proof. intros Hg. unfold complete_ride. now rewrite Hg. Qed.

(** A stored ride stays stored; the only change it can see is its own
    completion, by [complete_ride] on its id while it is active. *)
Lemma step_ride self op k r :
  wf self -> Dict.get (rides self) k = Some r ->
  Dict.get (rides (step' self op)) k = Some r \/
  (op = CompleteRide k /\ Ride.completed r = false /\
   Dict.get (rides (step' self op)) k = Some (Ride.set_completed true r)).
Proof.
  intros Hwf Hg. destruct op as [name|name x y|rid sx sy dx dy|id|]; simpl;
    auto.
  - unfold request_ride.
    destruct (Dict.get (riders self) rid); auto.
    destruct (_find_closest_driver hypot self sx sy) as [[ref d]|]; auto.
    simpl. left. rewrite DictFacts.get_set_neq; auto.
    intros Heq. rewrite <- Heq in Hg.
    rewrite (dict_ok_fresh _ _ _ (wf_rides _ Hwf)) in Hg. discriminate.
  - unfold complete_ride.
    destruct (Dict.get (rides self) id) as [ride|] eqn:Eg; auto.
    destruct (Ride.completed ride) eqn:Ec; auto. simpl.
    destruct (Z.eq_dec id k) as [->|Hne].
    + right. rewrite DictFacts.get_modify_eq, Hg. simpl.
      assert (ride = r) by congruence. subst. auto.
    + left. now rewrite DictFacts.get_modify_neq.
Qed.

(** Where a stored ride comes from: it was there, the same or active and
    just completed, or it has just been created, active. *)
Lemma step_ride_origin self op k r :
  wf self -> Dict.get (rides (step' self op)) k = Some r ->
  Dict.get (rides self) k = Some r \/
  (op = CompleteRide k /\
   exists r0, Dict.get (rides self) k = Some r0 /\
              r = Ride.set_completed true r0) \/
  (Dict.get (rides self) k = None /\ Ride.completed r = false).
Proof.
  intros Hwf. destruct op as [name|name x y|rid sx sy dx dy|id|]; simpl;
    auto.
  - unfold request_ride.
    destruct (Dict.get (riders self) rid); auto.
    destruct (_find_closest_driver hypot self sx sy) as [[ref d]|]; auto.
    simpl. destruct (Z.eq_dec (_ride_id self) k) as [<-|Hne].
    + rewrite DictFacts.get_set_eq. intros [= <-]. right. right.
      split; [|reflexivity]. apply (dict_ok_fresh _ _ _ (wf_rides _ Hwf)).
    + rewrite DictFacts.get_set_neq; auto.
  - unfold complete_ride.
    destruct (Dict.get (rides self) id) as [ride|] eqn:Eg; auto.
    destruct (Ride.completed ride) eqn:Ec; auto. simpl.
    destruct (Z.eq_dec id k) as [->|Hne].
    + rewrite DictFacts.get_modify_eq, Eg. simpl. intros [= <-].
      right. left. eauto.
    + rewrite DictFacts.get_modify_neq; auto.
Qed.

Lemma run_app self ops1 ops2 :
  run' self (ops1 ++ ops2) = run' (run' self ops1) ops2.
Proof. apply fold_left_app. Qed.

(** A ride on which [complete_ride] was never called is active. *)
Lemma never_completed_active ops k r :
  Dict.get (rides (run' init ops)) k = Some r ->
  ~ In (CompleteRide k) ops ->
  Ride.completed r = false.
Proof.
  revert r. induction ops as [|op ops IH] using rev_ind; intros r.
  - discriminate.
  - rewrite run_app. simpl. intros Hg Hnot.
    assert (Hwf : wf (run' init ops))
      by (eapply reachable_wf, reachable_run; constructor).
    apply step_ride_origin in Hg as [Hg|[[-> _]|[_ Hc]]]; auto.
    + apply IH; auto. intros Hin. apply Hnot, in_or_app. now left.
    + exfalso. apply Hnot, in_or_app. right. now left.
Qed.

(** A completed ride is never touched again. *)
Lemma run_completed self ops k r :
  wf self -> Dict.get (rides self) k = Some r -> Ride.completed r = true ->
  Dict.get (rides (run' self ops)) k = Some r.
Proof.
  revert self. induction ops as [|op ops IH]; intros self Hwf Hg Hc; simpl;
    auto.
  apply IH; auto using wf_step.
  destruct (step_ride self op k r Hwf Hg) as [H|(_ & Hc' & _)]; auto.
  congruence.
Qed.

(** Whatever happens later, a stored ride keeps every field but
    [completed]. *)
Lemma run_ride self ops k r :
  wf self -> Dict.get (rides self) k = Some r ->
  Dict.get (rides (run' self ops)) k = Some r \/
  Dict.get (rides (run' self ops)) k = Some (Ride.set_completed true r).
Proof.
  revert self r. induction ops as [|op ops IH]; intros self r Hwf Hg; simpl;
    auto.
  destruct (step_ride self op k r Hwf Hg) as [H|(_ & _ & H)].
  - apply IH; auto using wf_step.
  - right. apply run_completed; auto using wf_step.
Qed.

End RideHistory.

(** * The properties of the dispatch core *)

Section Properties.

Variable hypot : float -> float -> float.
Variable round2 : float -> float.

Local Abbreviation request := (request_ride hypot round2).
Local Abbreviation reach := (reachable hypot round2).
Local Abbreviation run' := (run hypot round2).
Local Abbreviation step' := (step hypot round2).

(** The choice of [request_ride], in terms of [dist_to]. *)
Lemma nearest_by_dist self rider_id sx sy dx dy ride :
  reach self ->
  ret (request self rider_id sx sy dx dy) = Some ride ->
  exists d,
    Dict.get (drivers self) (Ride.driver ride) = Some d /\
    Driver.available d = true /\
    forall k' d',
      Dict.get (drivers self) k' = Some d' ->
      Driver.available d' = true ->
      (dist_to hypot sx sy d' <? dist_to hypot sx sy d)%float = false /\
      ((dist_to hypot sx sy d' =? dist_to hypot sx sy d')%float = true ->
       (dist_to hypot sx sy d <=? dist_to hypot sx sy d')%float = true) /\
      ((dist_to hypot sx sy d' =? dist_to hypot sx sy d)%float = true ->
       Ride.driver ride <= k' /\ Driver.id d <= Driver.id d').
Proof.
  intros Hreach Hret.
  pose proof (reachable_wf _ _ _ Hreach) as Hwf.
  apply request_ride_inv in Hret
    as (rider & ref & d & _ & Hfind & -> & _). simpl.
  destruct (find_closest_get _ _ _ _ _ _ Hwf Hfind) as [Hget Hav].
  exists d. repeat split; auto.
  - pose proof Hfind as Hf.
    apply find_closest_Some in Hf as (_ & _ & Hmin & _).
    apply (Hmin (k', d')); auto. now apply DictFacts.get_Some_In.
  - intros Hnum. pose proof Hfind as Hf.
    apply find_closest_Some in Hf as (_ & Hinf & Hmin & _).
    apply PyFloat.ltb_false_leb; auto.
    + apply (Hmin (k', d')); auto. now apply DictFacts.get_Some_In.
    + eapply PyFloat.ltb_not_nan, Hinf.
  - eapply find_closest_first; eauto.
  - assert (ref <= k') by (eapply find_closest_first; eauto).
    rewrite (id_is_key _ _ _ (wf_drivers _ Hwf) _ _ Hget).
    rewrite (id_is_key _ _ _ (wf_drivers _ Hwf) _ _ H). assumption.
Qed.

(** With exactly two available drivers, in either order in the dict, the
    one whose [hypot] of the two coordinate differences is below the
    other's, itself below infinity, is chosen. *)
Lemma find_closest_pair self x y near far :
  (filter (fun e => Driver.available (snd e)) (drivers self) = [near; far] \/
   filter (fun e => Driver.available (snd e)) (drivers self) = [far; near]) ->
  (hypot (Driver.x (snd near) - x) (Driver.y (snd near) - y)
   <? hypot (Driver.x (snd far) - x) (Driver.y (snd far) - y))%float = true ->
  (hypot (Driver.x (snd far) - x) (Driver.y (snd far) - y)
   <? infinity)%float = true ->
  _find_closest_driver hypot self x y = Some near.
Proof.
  intros Hav Hlt Hinf.
  assert (Han : Driver.available (snd near) = true).
  { assert (In near (filter (fun e => Driver.available (snd e)) (drivers self)))
      by (destruct Hav as [-> | ->]; simpl; auto).
    now apply filter_In in H. }
  assert (Haf : Driver.available (snd far) = true).
  { assert (In far (filter (fun e => Driver.available (snd e)) (drivers self)))
      by (destruct Hav as [-> | ->]; simpl; auto).
    now apply filter_In in H. }
  pose proof (PyFloat.ltb_trans _ _ _ Hlt Hinf) as Hninf.
  assert (Hgt : (hypot (Driver.x (snd far) - x) (Driver.y (snd far) - y)
                 <? hypot (Driver.x (snd near) - x) (Driver.y (snd near) - y))
                %float = false).
  { destruct (hypot (Driver.x (snd far) - x) (Driver.y (snd far) - y)
              <? hypot (Driver.x (snd near) - x) (Driver.y (snd near) - y))
             %float eqn:E; [|reflexivity].
    pose proof (PyFloat.ltb_trans _ _ _ Hlt E) as Hc.
    now rewrite PyFloat.ltb_irrefl in Hc. }
  unfold _find_closest_driver. rewrite fold_closest_filter.
  destruct Hav as [-> | ->]; simpl; unfold closest_step, dist_to; simpl;
    rewrite ?Han, ?Haf; simpl; rewrite ?Hninf, ?Hinf; simpl;
    rewrite ?Hgt, ?Hlt; reflexivity.
Qed.

(** C1.  A successful [request_ride] assigns an available driver [d] such
    that no available driver [d'] is strictly nearer to the start point
    [(sx, sy)], the distance of a driver being
    [hypot (x - sx) (y - sy)] of its two coordinates, as line 65 computes
    it: [hypot (x d' - sx) (y d' - sy) < hypot (x d - sx) (y d - sy)] is
    false, and [d] is at most as far as every available driver whose
    distance is a number.  Among the available drivers at the same
    distance [d] is the one with the lowest key and id, the first
    registered.  With exactly two available drivers, at (0,0) and at
    (10,10), a request from (1,1) gets the one at (0,0), for every [hypot]
    that ranks (-1,-1) below (9,9) below infinity; and with exactly two
    available drivers anywhere, the request gets the one whose [hypot] of
    both coordinate differences is below the other's. *)
Theorem request_ride_nearest_available :
  (forall self rider_id sx sy dx dy ride,
     reach self ->
     ret (request self rider_id sx sy dx dy) = Some ride ->
     exists d,
       Dict.get (drivers self) (Ride.driver ride) = Some d /\
       Driver.available d = true /\
       forall k' d',
         Dict.get (drivers self) k' = Some d' ->
         Driver.available d' = true ->
         (hypot (Driver.x d' - sx) (Driver.y d' - sy)
          <? hypot (Driver.x d - sx) (Driver.y d - sy))%float = false /\
         ((hypot (Driver.x d' - sx) (Driver.y d' - sy)
           =? hypot (Driver.x d' - sx) (Driver.y d' - sy))%float = true ->
          (hypot (Driver.x d - sx) (Driver.y d - sy)
           <=? hypot (Driver.x d' - sx) (Driver.y d' - sy))%float = true) /\
         ((hypot (Driver.x d' - sx) (Driver.y d' - sy)
           =? hypot (Driver.x d - sx) (Driver.y d - sy))%float = true ->
          Ride.driver ride <= k' /\ Driver.id d <= Driver.id d')) /\
  (forall self rider_id rider dx dy near far,
     Dict.get (riders self) rider_id = Some rider ->
     (filter (fun e => Driver.available (snd e)) (drivers self)
        = [near; far] \/
      filter (fun e => Driver.available (snd e)) (drivers self)
        = [far; near]) ->
     Driver.x (snd near) = 0%float -> Driver.y (snd near) = 0%float ->
     Driver.x (snd far) = 10%float -> Driver.y (snd far) = 10%float ->
     (hypot (-1) (-1) <? hypot 9 9)%float = true ->
     (hypot 9 9 <? infinity)%float = true ->
     exists ride,
       ret (request self rider_id 1 1 dx dy) = Some ride /\
       Ride.driver ride = fst near) /\
  (forall self rider_id rider sx sy dx dy near far,
     Dict.get (riders self) rider_id = Some rider ->
     (filter (fun e => Driver.available (snd e)) (drivers self)
        = [near; far] \/
      filter (fun e => Driver.available (snd e)) (drivers self)
        = [far; near]) ->
     (hypot (Driver.x (snd near) - sx) (Driver.y (snd near) - sy)
      <? hypot (Driver.x (snd far) - sx) (Driver.y (snd far) - sy))%float
     = true ->
     (hypot (Driver.x (snd far) - sx) (Driver.y (snd far) - sy)
      <? infinity)%float = true ->
     exists ride,
       ret (request self rider_id sx sy dx dy) = Some ride /\
       Ride.driver ride = fst near).
Proof.
  split; [|split].
  - intros self rider_id sx sy dx dy ride Hreach Hret.
    destruct (nearest_by_dist self rider_id sx sy dx dy ride Hreach Hret)
      as (d & Hget & Hav & Hall).
    exists d. split; [exact Hget|]. split; [exact Hav|].
    intros k' d' Hg' Ha'. exact (Hall k' d' Hg' Ha').
  - intros self rider_id rider dx dy near far Hr Hav Hnx Hny Hfx Hfy Hlt Hinf.
    pose proof (find_closest_two hypot self near far Hav Hnx Hny Hfx Hfy
                  Hlt Hinf) as Hf.
    unfold request_ride. rewrite Hr, Hf. destruct near as [ref d]. simpl.
    eauto.
  - intros self rider_id rider sx sy dx dy near far Hr Hav Hlt Hinf.
    pose proof (find_closest_pair self sx sy near far Hav Hlt Hinf) as Hf.
    unfold request_ride. rewrite Hr, Hf. destruct near as [ref d]. simpl.
    eauto.
Qed.

(** C2.  In every reachable state the driver of an active ride is
    unavailable and no two active rides share a driver; a successful
    [request_ride] stores its ride as active with its driver unavailable,
    and the driver it takes is the driver of no ride that is still
    active. *)
Theorem driver_exclusive self :
  reach self ->
  (forall k r, Dict.get (rides self) k = Some r ->
     Ride.completed r = false ->
     exists d, Dict.get (drivers self) (Ride.driver r) = Some d /\
               Driver.available d = false) /\
  (forall k1 r1 k2 r2,
     Dict.get (rides self) k1 = Some r1 ->
     Dict.get (rides self) k2 = Some r2 ->
     Ride.completed r1 = false -> Ride.completed r2 = false ->
     Ride.driver r1 = Ride.driver r2 -> k1 = k2) /\
  (forall rider_id sx sy dx dy ride,
     ret (request self rider_id sx sy dx dy) = Some ride ->
     (forall k r, Dict.get (rides self) k = Some r ->
        Ride.completed r = false -> Ride.driver r <> Ride.driver ride) /\
     Dict.get (rides (after (request self rider_id sx sy dx dy)))
              (Ride.id ride) = Some ride /\
     Ride.completed ride = false /\
     exists d,
       Dict.get (drivers (after (request self rider_id sx sy dx dy)))
                (Ride.driver ride) = Some d /\
       Driver.available d = false).
Proof.
  intros Hreach. pose proof (reachable_wf _ _ _ Hreach) as Hwf.
  split; [apply (wf_busy _ Hwf)|]. split; [apply (wf_excl _ Hwf)|].
  intros rider_id sx sy dx dy ride Hret.
  apply request_ride_inv in Hret
    as (rider & ref & d & _ & Hfind & -> & _ & ->). simpl.
  destruct (find_closest_get _ _ _ _ _ _ Hwf Hfind) as [Hget Hav].
  repeat split.
  - intros k r Hg Hc Hsame.
    destruct (wf_busy _ Hwf k r Hg Hc) as (d' & Hd' & Ha'). congruence.
  - apply DictFacts.get_set_eq.
  - rewrite DictFacts.get_modify_eq, Hget. simpl. eauto.
Qed.

Lemma sub_1_0 : (1 - 0 = 1)%float.
Proof. reflexivity. Qed.

Lemma sub_0_0 : (0 - 0 = 0)%float.
Proof. reflexivity. Qed.

Lemma fare_350 : (250 + 1 * 100 = 350)%float.
Proof. reflexivity. Qed.

(** C3.  The ride stored by a successful [request_ride] carries the fare
    [round(250 + hypot(dest - start) * 100, 2)]; from (0,0) to (1,0) that
    is 350, for every [hypot] with [hypot 1 0 = 1] and every [round2]
    that leaves 350 alone; whatever operations follow in a reachable
    state, the stored ride keeps this fare. *)
Theorem fare_fixed_at_creation :
  (forall self rider_id sx sy dx dy ride,
     ret (request self rider_id sx sy dx dy) = Some ride ->
     Ride.fare ride = round2 (250 + hypot (dx - sx) (dy - sy) * 100)%float /\
     Dict.get (rides (after (request self rider_id sx sy dx dy)))
              (Ride.id ride) = Some ride) /\
  (forall self rider_id ride,
     ret (request self rider_id 0 0 1 0) = Some ride ->
     hypot 1 0 = 1%float -> round2 350 = 350%float ->
     Ride.fare ride = 350%float) /\
  (forall self rider_id sx sy dx dy ride ops,
     reach self ->
     ret (request self rider_id sx sy dx dy) = Some ride ->
     exists ride',
       Dict.get (rides (run' (after (request self rider_id sx sy dx dy)) ops))
                (Ride.id ride) = Some ride' /\
       Ride.fare ride' = Ride.fare ride).
Proof.
  split; [|split].
  - intros self rider_id sx sy dx dy ride Hret.
    apply request_ride_inv in Hret as (rider & ref & d & _ & _ & -> & _ & ->).
    simpl. split; [reflexivity | apply DictFacts.get_set_eq].
  - intros self rider_id ride Hret Hh Hr.
    apply request_ride_inv in Hret as (rider & ref & d & _ & _ & -> & _).
    simpl. unfold fare_of. now rewrite sub_1_0, sub_0_0, Hh, fare_350.
  - intros self rider_id sx sy dx dy ride ops Hreach Hret.
    assert (Hwf : wf (after (request self rider_id sx sy dx dy)))
      by (apply wf_request_ride, (reachable_wf _ _ _ Hreach)).
    assert (Hg : Dict.get (rides (after (request self rider_id sx sy dx dy)))
                   (Ride.id ride) = Some ride).
    { apply request_ride_inv in Hret as (rider & ref & d & _ & _ & -> & _ & ->).
      simpl. apply DictFacts.get_set_eq. }
    destruct (run_ride hypot round2 _ ops _ _ Hwf Hg) as [H|H]; eauto.
Qed.

(** C4.  Each of the four failures prints its own line; the four lines
    differ from each other and from what a success prints.  The returned
    value says less: [request_ride] returns [None] for both of its
    failures and the ride on success, [complete_ride] returns [None] on
    every path.  Every call returns: the operations are total. *)
Theorem failures_reported_by_message :
  (forall self rider_id sx sy dx dy,
     Dict.get (riders self) rider_id = None ->
     ret (request self rider_id sx sy dx dy) = None /\
     printed (request self rider_id sx sy dx dy) = [msg_rider_not_found]) /\
  (forall self rider_id sx sy dx dy,
     Dict.get (riders self) rider_id <> None ->
     _find_closest_driver hypot self sx sy = None ->
     ret (request self rider_id sx sy dx dy) = None /\
     printed (request self rider_id sx sy dx dy)
       = [msg_no_available_drivers]) /\
  (forall self rider_id sx sy dx dy,
     Dict.get (riders self) rider_id <> None ->
     _find_closest_driver hypot self sx sy <> None ->
     exists ride name,
       ret (request self rider_id sx sy dx dy) = Some ride /\
       printed (request self rider_id sx sy dx dy)
         = [[Str "Ride "; Int (Ride.id ride); Str " started with driver ";
             Str name; Str ". Fare will be "; Flt (Ride.fare ride)]]) /\
  (forall self ride_id,
     Dict.get (rides self) ride_id = None ->
     printed (complete_ride self ride_id) = [msg_ride_not_found]) /\
  (forall self ride_id ride,
     Dict.get (rides self) ride_id = Some ride ->
     Ride.completed ride = true ->
     printed (complete_ride self ride_id) = [msg_ride_already_completed]) /\
  (forall self ride_id ride,
     Dict.get (rides self) ride_id = Some ride ->
     Ride.completed ride = false ->
     printed (complete_ride self ride_id)
       = [[Str "Ride "; Int (Ride.id ride); Str " completed. Fare was ";
           Flt (Ride.fare ride)]]) /\
  (forall self ride_id, ret (complete_ride self ride_id) = tt) /\
  NoDup [msg_rider_not_found; msg_no_available_drivers;
         msg_ride_not_found; msg_ride_already_completed] /\
  (forall line,
     In line [msg_rider_not_found; msg_no_available_drivers;
              msg_ride_not_found; msg_ride_already_completed] ->
     List.length line = 1%nat).
Proof.
  split; [|split; [|split; [|split; [|split; [|split; [|split; [|split]]]]]]].
  - intros self rider_id sx sy dx dy Hr. unfold request_ride. now rewrite Hr.
  - intros self rider_id sx sy dx dy Hr Hf. unfold request_ride.
    destruct (Dict.get (riders self) rider_id); [|contradiction].
    now rewrite Hf.
  - intros self rider_id sx sy dx dy Hr Hf. unfold request_ride.
    destruct (Dict.get (riders self) rider_id); [|contradiction].
    destruct (_find_closest_driver hypot self sx sy) as [[ref d]|];
      [|contradiction].
    simpl. eauto.
  - intros self ride_id Hg. now rewrite complete_ride_missing.
  - intros self ride_id ride Hg Hc. now rewrite (complete_ride_done _ _ _ Hg Hc).
  - intros self ride_id ride Hg Hc.
    now rewrite (complete_ride_active _ _ _ Hg Hc).
  - intros self ride_id. now destruct (ret (complete_ride self ride_id)).
  - repeat constructor; simpl; intuition discriminate.
  - intros line Hin. simpl in Hin. intuition (subst; reflexivity).
Qed.

(** C5.  A failed call changes nothing: when [request_ride] returns
    [None] (the rider id is unknown, or the loop finds no driver), and
    when [complete_ride] is given an unknown ride id or the id of a
    completed ride, the state after the call is the state before it. *)
Theorem failure_leaves_state :
  (forall self rider_id sx sy dx dy,
     ret (request self rider_id sx sy dx dy) = None ->
     after (request self rider_id sx sy dx dy) = self) /\
  (forall self rider_id sx sy dx dy,
     Dict.get (riders self) rider_id = None ->
     ret (request self rider_id sx sy dx dy) = None) /\
  (forall self rider_id sx sy dx dy,
     _find_closest_driver hypot self sx sy = None ->
     ret (request self rider_id sx sy dx dy) = None) /\
  (forall self ride_id,
     Dict.get (rides self) ride_id = None ->
     after (complete_ride self ride_id) = self) /\
  (forall self ride_id ride,
     Dict.get (rides self) ride_id = Some ride ->
     Ride.completed ride = true ->
     after (complete_ride self ride_id) = self).
Proof.
  repeat split.
  - intros self rider_id sx sy dx dy H.
    now apply request_ride_None in H.
  - intros self rider_id sx sy dx dy H. unfold request_ride. now rewrite H.
  - intros self rider_id sx sy dx dy H. unfold request_ride. rewrite H.
    now destruct (Dict.get (riders self) rider_id).
  - intros self ride_id Hg. now rewrite complete_ride_missing.
  - intros self ride_id ride Hg Hc.
    now rewrite (complete_ride_done _ _ _ Hg Hc).
Qed.

(** C6.  Take a ride stored after any sequence of operations in which
    [complete_ride] was not yet called on its id.  The ride is active and
    the first [complete_ride] on it succeeds: it prints the completion
    line and stores the ride with [completed = True] and every other
    field as before.  From then on, whatever operations follow, the stored
    ride is that same record, and [complete_ride] on its id prints
    "Ride already completed" and changes nothing.  Before that first call
    no other operation changes the ride. *)
Theorem complete_ride_once ops ride_id ride :
  Dict.get (rides (run' init ops)) ride_id = Some ride ->
  ~ In (CompleteRide ride_id) ops ->
  Ride.completed ride = false /\
  printed (complete_ride (run' init ops) ride_id)
    = [[Str "Ride "; Int ride_id; Str " completed. Fare was ";
        Flt (Ride.fare ride)]] /\
  Dict.get (rides (after (complete_ride (run' init ops) ride_id))) ride_id
    = Some (Ride.set_completed true ride) /\
  (forall more,
     Dict.get
       (rides (run' (after (complete_ride (run' init ops) ride_id)) more))
       ride_id = Some (Ride.set_completed true ride) /\
     complete_ride
       (run' (after (complete_ride (run' init ops) ride_id)) more) ride_id
     = mkOutcome tt [msg_ride_already_completed]
         (run' (after (complete_ride (run' init ops) ride_id)) more)) /\
  (forall op, op <> CompleteRide ride_id ->
     Dict.get (rides (step' (run' init ops) op)) ride_id = Some ride).
Proof.
  intros Hg Hnot.
  assert (Hwf : wf (run' init ops))
    by (eapply reachable_wf, reachable_run; constructor).
  pose proof (never_completed_active _ _ _ _ _ Hg Hnot) as Hc.
  pose proof (id_is_key _ _ _ (wf_rides _ Hwf) _ _ Hg) as Hid.
  assert (Hwf1 : wf (after (complete_ride (run' init ops) ride_id)))
    by now apply wf_complete_ride.
  assert (Hdone :
            Dict.get (rides (after (complete_ride (run' init ops) ride_id)))
                     ride_id = Some (Ride.set_completed true ride)).
  { rewrite (complete_ride_active _ _ _ Hg Hc). simpl.
    now rewrite DictFacts.get_modify_eq, Hg. }
  repeat split; auto.
  - rewrite (complete_ride_active _ _ _ Hg Hc). simpl. now rewrite Hid.
  - apply run_completed; auto.
  - apply complete_ride_done with (ride := Ride.set_completed true ride);
      auto.
    apply run_completed; auto.
  - intros op Hop.
    destruct (step_ride hypot round2 _ op _ _ Hwf Hg) as [H|(H & _)]; auto.
    contradiction.
Qed.

(** C7.  [complete_ride] on an active ride of a reachable state stores
    the ride as completed and, through the ride's reference, makes its
    driver available at the destination of the ride; the driver keeps its
    id and name, every other driver and everything else stays as it is. *)
Theorem complete_ride_releases_driver self ride_id ride :
  reach self ->
  Dict.get (rides self) ride_id = Some ride ->
  Ride.completed ride = false ->
  Dict.get (rides (after (complete_ride self ride_id))) ride_id
    = Some (Ride.set_completed true ride) /\
  Ride.completed (Ride.set_completed true ride) = true /\
  (exists d d',
     Dict.get (drivers self) (Ride.driver ride) = Some d /\
     Dict.get (drivers (after (complete_ride self ride_id)))
              (Ride.driver ride) = Some d' /\
     Driver.available d' = true /\
     Driver.x d' = Ride.dest_x ride /\
     Driver.y d' = Ride.dest_y ride /\
     Driver.id d' = Driver.id d /\
     Driver.name d' = Driver.name d) /\
  (forall k, k <> Ride.driver ride ->
     Dict.get (drivers (after (complete_ride self ride_id))) k
     = Dict.get (drivers self) k) /\
  (forall k, k <> ride_id ->
     Dict.get (rides (after (complete_ride self ride_id))) k
     = Dict.get (rides self) k) /\
  riders (after (complete_ride self ride_id)) = riders self.
Proof.
  intros Hreach Hg Hc. pose proof (reachable_wf _ _ _ Hreach) as Hwf.
  rewrite (complete_ride_active _ _ _ Hg Hc). simpl.
  destruct (wf_live _ Hwf _ _ Hg) as (d & Hd).
  repeat split.
  - now rewrite DictFacts.get_modify_eq, Hg.
  - exists d, (Driver.release (Ride.dest_x ride) (Ride.dest_y ride) d).
    rewrite DictFacts.get_modify_eq, Hd. simpl. auto 10.
  - intros k Hk. now rewrite DictFacts.get_modify_neq by auto.
  - intros k Hk. now rewrite DictFacts.get_modify_neq by auto.
Qed.

(** C8.  In every reachable state the keys of each of the three dicts,
    in insertion order, are 1, 2, ..., n, each stored object carries its
    key as id, and the counter of the dict stands at n + 1, an id that is
    not in use.  A registration or a successful request gives the new
    object the value of its own counter and advances that counter alone;
    the counters start at 1. *)
Theorem ids_sequential :
  (_rider_id init = 1 /\ _driver_id init = 1 /\ _ride_id init = 1) /\
  (forall self, reach self ->
     (Dict.keys (riders self) = iota (List.length (riders self)) /\
      map Rider.id (Dict.values (riders self))
        = iota (List.length (riders self)) /\
      _rider_id self = Z.of_nat (List.length (riders self)) + 1 /\
      Dict.get (riders self) (_rider_id self) = None) /\
     (Dict.keys (drivers self) = iota (List.length (drivers self)) /\
      map Driver.id (Dict.values (drivers self))
        = iota (List.length (drivers self)) /\
      _driver_id self = Z.of_nat (List.length (drivers self)) + 1 /\
      Dict.get (drivers self) (_driver_id self) = None) /\
     (Dict.keys (rides self) = iota (List.length (rides self)) /\
      map Ride.id (Dict.values (rides self))
        = iota (List.length (rides self)) /\
      _ride_id self = Z.of_nat (List.length (rides self)) + 1 /\
      Dict.get (rides self) (_ride_id self) = None)) /\
  (forall self name,
     Rider.id (ret (register_rider self name)) = _rider_id self /\
     _rider_id (after (register_rider self name)) = _rider_id self + 1 /\
     _driver_id (after (register_rider self name)) = _driver_id self /\
     _ride_id (after (register_rider self name)) = _ride_id self) /\
  (forall self name x y,
     Driver.id (ret (register_driver self name x y)) = _driver_id self /\
     _rider_id (after (register_driver self name x y)) = _rider_id self /\
     _driver_id (after (register_driver self name x y))
       = _driver_id self + 1 /\
     _ride_id (after (register_driver self name x y)) = _ride_id self) /\
  (forall self rider_id sx sy dx dy ride,
     ret (request self rider_id sx sy dx dy) = Some ride ->
     Ride.id ride = _ride_id self /\
     _rider_id (after (request self rider_id sx sy dx dy))
       = _rider_id self /\
     _driver_id (after (request self rider_id sx sy dx dy))
       = _driver_id self /\
     _ride_id (after (request self rider_id sx sy dx dy))
       = _ride_id self + 1) /\
  (forall self ride_id,
     _rider_id (after (complete_ride self ride_id)) = _rider_id self /\
     _driver_id (after (complete_ride self ride_id)) = _driver_id self /\
     _ride_id (after (complete_ride self ride_id)) = _ride_id self).
Proof.
  split; [now repeat split|]. split; [|split; [|split; [|split]]].
  - intros self Hreach. destruct (reachable_wf _ _ _ Hreach) as [Hr Hd Hrd _ _ _].
    repeat split;
      first [ eapply keys_iota; eassumption
            | eapply dict_ok_ids; eassumption
            | eapply next_id; eassumption
            | eapply dict_ok_fresh; eassumption ].
  - intros self name. now repeat split.
  - intros self name x y. now repeat split.
  - intros self rider_id sx sy dx dy ride Hret.
    apply request_ride_inv in Hret as (rider & ref & d & _ & _ & -> & _ & ->).
    now repeat split.
  - intros self ride_id. unfold complete_ride.
    destruct (Dict.get (rides self) ride_id) as [ride|]; [|now repeat split].
    destruct (Ride.completed ride); now repeat split.
Qed.

Lemma Forall2_map_r {A B} (P : A -> B -> Prop) (f : A -> B) l :
  (forall a, In a l -> P a (f a)) -> Forall2 P l (map f l).
Proof.
  induction l as [|a l IH]; simpl; intros H; constructor; auto.
Qed.

(** C9.  In a reachable state [list_rides] prints one line per stored
    ride, in the order of the dict, which is the order of the ride ids
    1, 2, ..., n; the line carries the id, "completed" when the ride is
    completed and "active" when it is not, the name of the rider and the
    name of the driver the ride refers to; the state is left as it is. *)
Theorem list_rides_ascending self :
  reach self ->
  after (list_rides self) = self /\
  Forall2
    (fun ride line =>
       exists d,
         Dict.get (drivers self) (Ride.driver ride) = Some d /\
         line = [Str "Ride "; Int (Ride.id ride); Str " (";
                 Str (if Ride.completed ride then "completed" else "active");
                 Str "): Rider "; Str (Rider.name (Ride.rider ride));
                 Str " -> Driver "; Str (Driver.name d)])
    (Dict.values (rides self)) (printed (list_rides self)) /\
  map Ride.id (Dict.values (rides self)) = iota (List.length (rides self)) /\
  StronglySorted Z.lt (map Ride.id (Dict.values (rides self))) /\
  (forall ride,
     (status_of ride = "completed"%string <-> Ride.completed ride = true) /\
     (status_of ride = "active"%string <-> Ride.completed ride = false)).
Proof.
  intros Hreach. pose proof (reachable_wf _ _ _ Hreach) as Hwf.
  pose proof (dict_ok_ids _ _ _ (wf_rides _ Hwf)) as Hids.
  repeat split.
  - apply Forall2_map_r. intros ride Hin.
    apply in_map_iff in Hin as ([k r] & <- & Hin). simpl.
    apply DictFacts.In_get in Hin;
      [|eapply dict_ok_NoDup, wf_rides, Hwf].
    destruct (wf_live _ Hwf _ _ Hin) as (d & Hd). exists d.
    split; [exact Hd|]. unfold ride_line, driver_name, status_of.
    now rewrite Hd.
  - exact Hids.
  - rewrite Hids. apply iota_sorted.
  - unfold status_of. destruct (Ride.completed ride); [auto | discriminate].
  - unfold status_of. destruct (Ride.completed ride); [auto | discriminate].
  - unfold status_of. destruct (Ride.completed ride); [discriminate | auto].
  - unfold status_of. destruct (Ride.completed ride); [discriminate | auto].
Qed.

(** [request_ride] does not look at the rides of the rider: in a
    reachable state, when the rider id is known and some available driver
    is at a distance below infinity from the start point, the call
    succeeds, with a new active ride of that rider stored beside all the
    rides that were there, which stay as they are, the active rides of
    the same rider among them.  (The part of C10 that holds on the code:
    see [request_ride_fails_with_available_driver] for the rest.) *)
Theorem request_ride_no_rider_exclusivity self rider_id rider sx sy dx dy :
  reach self ->
  Dict.get (riders self) rider_id = Some rider ->
  (exists k d,
     Dict.get (drivers self) k = Some d /\
     Driver.available d = true /\
     (dist_to hypot sx sy d <? infinity)%float = true) ->
  exists ride,
    ret (request self rider_id sx sy dx dy) = Some ride /\
    Ride.rider ride = rider /\
    Ride.completed ride = false /\
    Dict.get (rides (after (request self rider_id sx sy dx dy)))
             (Ride.id ride) = Some ride /\
    forall k r,
      Dict.get (rides self) k = Some r ->
      k <> Ride.id ride /\
      Dict.get (rides (after (request self rider_id sx sy dx dy))) k
      = Some r.
Proof.
  intros Hreach Hr (k & d & Hd & Ha & Hlt).
  pose proof (reachable_wf _ _ _ Hreach) as Hwf.
  unfold request_ride. rewrite Hr.
  destruct (_find_closest_driver hypot self sx sy) as [[ref c]|] eqn:Ef.
  - simpl. eexists. split; [reflexivity|]. simpl.
    split; [reflexivity|]. split; [reflexivity|].
    split; [apply DictFacts.get_set_eq|].
    intros k0 r Hg0.
    assert (Hne : k0 <> _ride_id self).
    { intros ->. rewrite (dict_ok_fresh _ _ _ (wf_rides _ Hwf)) in Hg0.
      discriminate. }
    split; [exact Hne|]. rewrite DictFacts.get_set_neq; auto.
  - exfalso.
    pose proof (find_closest_None hypot sx sy self Ef (k, d)
                  (DictFacts.get_Some_In _ _ _ Hd) Ha) as Hn.
    simpl in Hn. congruence.
Qed.

End Properties.

(** * Concrete runs of the properties *)

Section Runs.

Import Examples.

Lemma reachable_ref ops : reachable hypot_ref round2_ref (run_ref init ops).
Proof. apply reachable_run, reachable_init. Qed.

(** C1 on [two_drivers]: the request from (1,1) gets driver 1, at (0,0);
    and on [skew_drivers]: the request from (0,0) gets driver 2, at (1,0),
    not driver 1, at (0,100), which is nearer in x alone. *)
Lemma request_ride_nearest_available_witness :
  (exists ride,
     reachable hypot_ref round2_ref two_drivers /\
     ret (request_ref two_drivers 1 1 1 5 5) = Some ride /\
     exists d,
       Dict.get (drivers two_drivers) (Ride.driver ride) = Some d /\
       Driver.available d = true) /\
  (exists ride,
     ret (request_ref two_drivers 1 1 1 5 5) = Some ride /\
     Ride.driver ride = 1) /\
  (exists ride,
     reachable hypot_ref round2_ref skew_drivers /\
     ret (request_ref skew_drivers 1 0 0 5 5) = Some ride /\
     Ride.driver ride = 2 /\
     exists d,
       Dict.get (drivers skew_drivers) (Ride.driver ride) = Some d /\
       (hypot_ref (0 - 0) (100 - 0)
        <? hypot_ref (Driver.x d - 0) (Driver.y d - 0))%float = false) /\
  (exists ride,
     ret (request_ref skew_drivers 1 0 0 5 5) = Some ride /\
     Ride.driver ride = 2).
Proof.
  destruct (request_ride_nearest_available hypot_ref round2_ref)
    as (Hgen & Hexample & Hpair).
  split; [|split; [|split]].
  - eexists. split; [apply reachable_ref|]. split; [reflexivity|].
    destruct (Hgen two_drivers 1 1%float 1%float 5%float 5%float _
                (reachable_ref two_drivers_ops) eq_refl)
      as (d & Hd & Ha & _).
    exists d. split; assumption.
  - apply (Hexample two_drivers 1 (Rider.mk 1 "ann") 5%float 5%float
             (1, Driver.mk 1 "near" 0 0 true)
             (2, Driver.mk 2 "far" 10 10 true));
      try reflexivity.
    left. reflexivity.
  - eexists. split; [apply reachable_ref|]. split; [reflexivity|].
    split; [reflexivity|].
    destruct (Hgen skew_drivers 1 0%float 0%float 5%float 5%float _
                (reachable_ref skew_drivers_ops) eq_refl)
      as (d & Hd & _ & Hall).
    exists d. split; [exact Hd|].
    exact (proj1 (Hall 1 (Driver.mk 1 "north" 0 100 true) eq_refl eq_refl)).
  - apply (Hpair skew_drivers 1 (Rider.mk 1 "ann")
             0%float 0%float 5%float 5%float
             (2, Driver.mk 2 "east" 1 0 true)
             (1, Driver.mk 1 "north" 0 100 true));
      try reflexivity.
    right. reflexivity.
Defined.

(** C2 on [one_ride]: ride 1 is active and its driver is unavailable; a
    second request from the same point gets another driver. *)
Lemma driver_exclusive_witness :
  reachable hypot_ref round2_ref one_ride /\
  (exists r d,
     Dict.get (rides one_ride) 1 = Some r /\ Ride.completed r = false /\
     Dict.get (drivers one_ride) (Ride.driver r) = Some d /\
     Driver.available d = false) /\
  (exists r ride,
     Dict.get (rides one_ride) 1 = Some r /\
     ret (request_ref one_ride 1 1 1 5 5) = Some ride /\
     Ride.driver r <> Ride.driver ride).
Proof.
  pose proof (driver_exclusive hypot_ref round2_ref one_ride
                (reachable_ref one_ride_ops)) as (Hbusy & _ & Hnext).
  split; [apply reachable_ref|]. split.
  - eexists. destruct (Hbusy 1 _ eq_refl eq_refl) as (d & Hd & Ha).
    exists d. repeat split; assumption.
  - do 2 eexists. split; [reflexivity|]. split; [reflexivity|].
    destruct (Hnext 1 1%float 1%float 5%float 5%float _ eq_refl)
      as (Hother & _).
    apply (Hother 1 _ eq_refl eq_refl).
Defined.

(** C3 on [two_drivers]: the ride from (0,0) to (1,0) costs 350, and
    still does after it is completed and listed. *)
Lemma fare_fixed_at_creation_witness :
  hypot_ref 1 0 = 1%float /\ round2_ref 350 = 350%float /\
  reachable hypot_ref round2_ref two_drivers /\
  exists ride,
    ret (request_ref two_drivers 1 0 0 1 0) = Some ride /\
    Ride.fare ride = 350%float /\
    exists ride',
      Dict.get
        (rides (run_ref (after (request_ref two_drivers 1 0 0 1 0))
                  [CompleteRide 1; ListRides]))
        (Ride.id ride) = Some ride' /\
      Ride.fare ride' = Ride.fare ride.
Proof.
  destruct (fare_fixed_at_creation hypot_ref round2_ref)
    as (_ & Hexample & Hlater).
  split; [reflexivity|]. split; [reflexivity|].
  split; [apply reachable_ref|].
  eexists. split; [reflexivity|]. split.
  - apply (Hexample two_drivers 1 _ eq_refl); reflexivity.
  - apply (Hlater two_drivers 1 0%float 0%float 1%float 0%float _
             [CompleteRide 1; ListRides]
             (reachable_ref two_drivers_ops) eq_refl).
Defined.

(** C4 (as amended) on [init], [one_rider] and [one_ride]. *)
Lemma failures_reported_by_message_witness :
  Dict.get (riders init) 1 = None /\
  printed (request_ref init 1 0 0 1 0) = [msg_rider_not_found] /\
  Dict.get (rides one_ride) 1
    = Some (Ride.mk 1 (Rider.mk 1 "ann") 1 1 1 5 5
              (round2_ref (250 + hypot_ref 4 4 * 100)) false) /\
  printed (complete_ride one_ride 1)
    = [[Str "Ride "; Int 1; Str " completed. Fare was ";
        Flt (round2_ref (250 + hypot_ref 4 4 * 100))]].
Proof.
  destruct (failures_reported_by_message hypot_ref round2_ref)
    as (Hunknown & _ & _ & _ & _ & Hdone & _).
  split; [reflexivity|].
  split; [apply (Hunknown init 1 0%float 0%float 1%float 0%float eq_refl)|].
  split; [reflexivity|].
  apply (Hdone one_ride 1 _ eq_refl eq_refl).
Defined.

(** C5 on [one_rider]: the rider is known, there is no driver, the
    request fails and the state is the same. *)
Lemma failure_leaves_state_witness :
  ret (request_ref one_rider 1 0 0 1 0) = None /\
  after (request_ref one_rider 1 0 0 1 0) = one_rider.
Proof.
  destruct (failure_leaves_state hypot_ref round2_ref) as (Hfail & _).
  split; [reflexivity|].
  apply (Hfail one_rider 1 0%float 0%float 1%float 0%float eq_refl).
Defined.

(** C6 on [one_ride]: ride 1, never completed so far. *)
Lemma complete_ride_once_witness :
  ~ In (CompleteRide 1) one_ride_ops /\
  exists ride,
    Dict.get (rides one_ride) 1 = Some ride /\
    Ride.completed ride = false /\
    complete_ride
      (run_ref (after (complete_ride one_ride 1)) [RequestRide 1 5 5 0 0]) 1
    = mkOutcome tt [msg_ride_already_completed]
        (run_ref (after (complete_ride one_ride 1)) [RequestRide 1 5 5 0 0]).
Proof.
  assert (Hnot : ~ In (CompleteRide 1) one_ride_ops)
    by (simpl; intuition discriminate).
  split; [exact Hnot|]. eexists.
  destruct (complete_ride_once hypot_ref round2_ref one_ride_ops 1 _
              eq_refl Hnot) as (Hactive & _ & _ & Hlater & _).
  split; [reflexivity|]. split; [exact Hactive|].
  apply (Hlater [RequestRide 1 5%float 5%float 0%float 0%float]).
Defined.

(** C7 on [one_ride]: completing ride 1 puts driver 1 at (5,5). *)
Lemma complete_ride_releases_driver_witness :
  reachable hypot_ref round2_ref one_ride /\
  exists ride d',
    Dict.get (rides one_ride) 1 = Some ride /\
    Ride.completed ride = false /\
    Ride.dest_x ride = 5%float /\ Ride.dest_y ride = 5%float /\
    Dict.get (drivers (after (complete_ride one_ride 1))) (Ride.driver ride)
      = Some d' /\
    Driver.available d' = true /\
    Driver.x d' = Ride.dest_x ride /\ Driver.y d' = Ride.dest_y ride.
Proof.
  split; [apply reachable_ref|]. eexists.
  destruct (complete_ride_releases_driver hypot_ref round2_ref one_ride 1 _
              (reachable_ref one_ride_ops) eq_refl eq_refl)
    as (_ & _ & (d & d' & _ & Hd' & Ha & Hx & Hy & _) & _).
  exists d'. repeat split; assumption || reflexivity.
Defined.

(** C8 on [one_ride]: one rider, two drivers, one ride. *)
Lemma ids_sequential_witness :
  reachable hypot_ref round2_ref one_ride /\
  Dict.keys (drivers one_ride) = iota 2 /\
  _driver_id one_ride = 3 /\
  Dict.keys (rides one_ride) = iota 1 /\
  _ride_id one_ride = 2.
Proof.
  destruct (ids_sequential hypot_ref round2_ref) as (_ & Hreach & _).
  destruct (Hreach one_ride (reachable_ref one_ride_ops))
    as (_ & (Hdk & _ & Hdn & _) & (Hrk & _ & Hrn & _)).
  split; [apply reachable_ref|]. repeat split; assumption.
Defined.

(** C9 on [one_ride] after a second request and the completion of the
    first ride: a completed ride 1 and an active ride 2. *)
Lemma list_rides_ascending_witness :
  reachable hypot_ref round2_ref
    (run_ref init (one_ride_ops ++ [RequestRide 1 1 1 2 2; CompleteRide 1])) /\
  map Ride.id
    (Dict.values
       (rides (run_ref init
                 (one_ride_ops ++ [RequestRide 1 1 1 2 2; CompleteRide 1]))))
  = iota 2 /\
  after (list_rides
           (run_ref init
              (one_ride_ops ++ [RequestRide 1 1 1 2 2; CompleteRide 1])))
  = run_ref init (one_ride_ops ++ [RequestRide 1 1 1 2 2; CompleteRide 1]).
Proof.
  destruct (list_rides_ascending hypot_ref round2_ref _
              (reachable_ref
                 (one_ride_ops ++ [RequestRide 1 1 1 2 2; CompleteRide 1])))
    as (Hsame & _ & Hids & _).
  split; [apply reachable_ref|]. split; [exact Hids | exact Hsame].
Defined.

(** On [one_ride]: rider 1 holds the active ride 1 and gets a second
    ride, with driver 2. *)
Lemma request_ride_no_rider_exclusivity_witness :
  reachable hypot_ref round2_ref one_ride /\
  Dict.get (riders one_ride) 1 = Some (Rider.mk 1 "ann") /\
  (exists r, Dict.get (rides one_ride) 1 = Some r /\
             Ride.rider r = Rider.mk 1 "ann" /\
             Ride.completed r = false) /\
  exists ride,
    ret (request_ref one_ride 1 1 1 2 2) = Some ride /\
    Ride.rider ride = Rider.mk 1 "ann" /\
    Ride.completed ride = false.
Proof.
  split; [apply reachable_ref|]. split; [reflexivity|].
  split; [eexists; repeat split; reflexivity|].
  destruct (request_ride_no_rider_exclusivity hypot_ref round2_ref one_ride 1
              (Rider.mk 1 "ann") 1%float 1%float 2%float 2%float
              (reachable_ref one_ride_ops) eq_refl)
    as (ride & Hret & Hrider & Hactive & _).
  - exists 2, (Driver.mk 2 "far" 10 10 true). repeat split; reflexivity.
  - exists ride. repeat split; assumption.
Defined.

(** C4 as stated fails: the two failures of [request_ride], unknown
    rider on [init] and no driver on [one_rider], return the same value,
    and [complete_ride] returns the same value when it completes ride 1 of
    [one_ride] and when it finds no ride 7; only the printed lines
    differ. *)
Lemma failures_return_the_same_value :
  printed (request_ref init 1 0 0 1 0) = [msg_rider_not_found] /\
  printed (request_ref one_rider 1 0 0 1 0) = [msg_no_available_drivers] /\
  ret (request_ref init 1 0 0 1 0) = ret (request_ref one_rider 1 0 0 1 0) /\
  printed (complete_ride one_ride 7) = [msg_ride_not_found] /\
  printed (complete_ride one_ride 1) <> printed (complete_ride one_ride 7) /\
  ret (complete_ride one_ride 1) = ret (complete_ride one_ride 7).
Proof.
  repeat split; try reflexivity. discriminate.
Qed.

(** C10.  A known rider and an available driver do not always give a
    ride.  In [far_driver] rider 1 is known and driver 1 is available, at
    (2^1023, 0); from (-2^1023, 0) the difference of the abscissas
    overflows to infinity, [hypot] of it is infinity, [inf < inf] is false:
    the loop chooses nobody and the request fails with "No available
    drivers". *)
Lemma request_ride_fails_with_available_driver :
  reachable hypot_ref round2_ref far_driver /\
  Dict.get (riders far_driver) 1 = Some (Rider.mk 1 "ann") /\
  Dict.get (drivers far_driver) 1
    = Some (Driver.mk 1 "far" 0x1p1023 0 true) /\
  (0x1p1023 - (-0x1p1023) = infinity)%float /\
  ret (request_ref far_driver 1 (-0x1p1023) 0 0 0) = None /\
  printed (request_ref far_driver 1 (-0x1p1023) 0 0 0)
    = [msg_no_available_drivers].
Proof.
  split; [apply reachable_ref|]. repeat split; reflexivity.
Qed.

End Runs.

(** * More of the core *)

Section Core.

Variable hypot : float -> float -> float.
Variable round2 : float -> float.

Local Abbreviation request := (request_ride hypot round2).
Local Abbreviation reach := (reachable hypot round2).
Local Abbreviation run' := (run hypot round2).
Local Abbreviation step' := (step hypot round2).
Local Abbreviation find := (_find_closest_driver hypot).

(** [_find_closest_driver] returns [None] exactly when no available
    driver is at a distance below infinity: with no driver at all, with
    every driver on a ride, or with the available ones at an infinite or
    NaN distance.  What it returns otherwise is an entry of the dict, an
    available driver at a distance below infinity. *)
Theorem find_closest_driver_result self x y :
  (find self x y = None <->
   forall k d, In (k, d) (drivers self) -> Driver.available d = true ->
     (dist_to hypot x y d <? infinity)%float = false) /\
  (forall k d, find self x y = Some (k, d) ->
     In (k, d) (drivers self) /\ Driver.available d = true /\
     (dist_to hypot x y d <? infinity)%float = true).
Proof.
  split; [split|].
  - intros Hnone k d Hin Ha.
    apply (find_closest_None hypot x y self Hnone (k, d) Hin Ha).
  - intros Hall. destruct (find self x y) as [[k d]|] eqn:Ef; [|reflexivity].
    apply find_closest_Some in Ef as (Ha & Hlt & _ & before & rest & Heq & _).
    simpl in Ha, Hlt.
    assert (Hin : In (k, d) (drivers self))
      by (rewrite Heq; apply in_or_app; right; now left).
    rewrite (Hall k d Hin Ha) in Hlt. discriminate.
  - intros k d Ef.
    apply find_closest_Some in Ef as (Ha & Hlt & _ & before & rest & Heq & _).
    repeat split; auto. rewrite Heq. apply in_or_app. right. now left.
Qed.

(** A successful [request_ride] changes one flag and adds one ride: the
    riders are as before, every driver but the chosen one is as before, the
    chosen one keeps id, name and position and becomes unavailable, and the
    new ride goes last in the dict of rides. *)
Theorem request_ride_frame self rider_id sx sy dx dy ride :
  reach self ->
  ret (request self rider_id sx sy dx dy) = Some ride ->
  riders (after (request self rider_id sx sy dx dy)) = riders self /\
  (forall k, k <> Ride.driver ride ->
     Dict.get (drivers (after (request self rider_id sx sy dx dy))) k
     = Dict.get (drivers self) k) /\
  (exists d,
     Dict.get (drivers self) (Ride.driver ride) = Some d /\
     Dict.get (drivers (after (request self rider_id sx sy dx dy)))
              (Ride.driver ride)
     = Some (Driver.mk (Driver.id d) (Driver.name d) (Driver.x d)
                       (Driver.y d) false)) /\
  rides (after (request self rider_id sx sy dx dy))
  = rides self ++ [(Ride.id ride, ride)].
Proof.
  intros Hreach Hret. pose proof (reachable_wf _ _ _ Hreach) as Hwf.
  apply request_ride_inv in Hret
    as (rider & ref & d & _ & Hfind & -> & _ & ->). simpl.
  destruct (find_closest_get _ _ _ _ _ _ Hwf Hfind) as [Hget _].
  repeat split.
  - intros k Hk. now rewrite DictFacts.get_modify_neq by auto.
  - exists d. split; [exact Hget|].
    now rewrite DictFacts.get_modify_eq, Hget.
  - apply DictFacts.set_fresh, (dict_ok_fresh _ _ _ (wf_rides _ Hwf)).
Qed.

(** [register_rider] in a reachable state: the rider is stored under the
    id it returns, an id that was not in use, with the given name; every
    rider stored before is still there, drivers and rides are as before. *)
Theorem register_rider_stored self name :
  reach self ->
  Dict.get (riders self) (Rider.id (ret (register_rider self name))) = None /\
  Dict.get (riders (after (register_rider self name)))
           (Rider.id (ret (register_rider self name)))
  = Some (ret (register_rider self name)) /\
  Rider.name (ret (register_rider self name)) = name /\
  (forall k r, Dict.get (riders self) k = Some r ->
     Dict.get (riders (after (register_rider self name))) k = Some r) /\
  drivers (after (register_rider self name)) = drivers self /\
  rides (after (register_rider self name)) = rides self.
Proof.
  intros Hreach. pose proof (reachable_wf _ _ _ Hreach) as Hwf.
  pose proof (dict_ok_fresh _ _ _ (wf_riders _ Hwf)) as Hf. simpl.
  repeat split; auto.
  - apply DictFacts.get_set_eq.
  - intros k r Hg. rewrite DictFacts.get_set_neq; auto.
    intros Heq. rewrite <- Heq in Hg. congruence.
Qed.

(** [register_driver] in a reachable state: the driver is stored under
    the id it returns, an id that was not in use, available, with the given
    name and position; every driver stored before is as it was, riders and
    rides are as before. *)
Theorem register_driver_stored self name x y :
  reach self ->
  Dict.get (drivers self) (Driver.id (ret (register_driver self name x y)))
  = None /\
  Dict.get (drivers (after (register_driver self name x y)))
           (Driver.id (ret (register_driver self name x y)))
  = Some (ret (register_driver self name x y)) /\
  ret (register_driver self name x y)
  = Driver.mk (_driver_id self) name x y true /\
  (forall k d, Dict.get (drivers self) k = Some d ->
     Dict.get (drivers (after (register_driver self name x y))) k = Some d) /\
  riders (after (register_driver self name x y)) = riders self /\
  rides (after (register_driver self name x y)) = rides self.
Proof.
  intros Hreach. pose proof (reachable_wf _ _ _ Hreach) as Hwf.
  pose proof (dict_ok_fresh _ _ _ (wf_drivers _ Hwf)) as Hf. simpl.
  repeat split; auto.
  - apply DictFacts.get_set_eq.
  - intros k d Hg. rewrite DictFacts.get_set_neq; auto.
    intros Heq. rewrite <- Heq in Hg. congruence.
Qed.

(** A ride that was just requested can be completed at once: the call
    prints the completion line with the fare of the ride, the ride is
    stored completed, and its driver is available again, at the
    destination of the ride. *)
Theorem request_then_complete self rider_id sx sy dx dy ride :
  reach self ->
  ret (request self rider_id sx sy dx dy) = Some ride ->
  printed (complete_ride (after (request self rider_id sx sy dx dy))
                         (Ride.id ride))
  = [[Str "Ride "; Int (Ride.id ride); Str " completed. Fare was ";
      Flt (Ride.fare ride)]] /\
  Dict.get
    (rides (after (complete_ride (after (request self rider_id sx sy dx dy))
                                 (Ride.id ride))))
    (Ride.id ride)
  = Some (Ride.set_completed true ride) /\
  exists d,
    Dict.get (drivers self) (Ride.driver ride) = Some d /\
    Dict.get
      (drivers (after (complete_ride
                         (after (request self rider_id sx sy dx dy))
                         (Ride.id ride))))
      (Ride.driver ride)
    = Some (Driver.mk (Driver.id d) (Driver.name d) dx dy true).
Proof.
  intros Hreach Hret. pose proof (reachable_wf _ _ _ Hreach) as Hwf.
  apply request_ride_inv in Hret
    as (rider & ref & d & _ & Hfind & -> & _ & Hafter). simpl.
  destruct (find_closest_get _ _ _ _ _ _ Hwf Hfind) as [Hget _].
  set (ride := Ride.mk _ _ _ _ _ _ _ _ _) in *.
  assert (Hg : Dict.get (rides (after (request self rider_id sx sy dx dy)))
                        (_ride_id self) = Some ride)
    by (rewrite Hafter; simpl; apply DictFacts.get_set_eq).
  rewrite (complete_ride_active _ _ _ Hg eq_refl). simpl.
  repeat split.
  - now rewrite DictFacts.get_modify_eq, Hg.
  - exists d. split; [exact Hget|]. rewrite Hafter. simpl.
    now rewrite !DictFacts.get_modify_eq, Hget.
Qed.

Lemma idle_step self op :
  wf self ->
  (forall k d, Dict.get (drivers self) k = Some d ->
     Driver.available d = false ->
     exists k' r, Dict.get (rides self) k' = Some r /\
                  Ride.completed r = false /\ Ride.driver r = k) ->
  forall k d, Dict.get (drivers (step' self op)) k = Some d ->
    Driver.available d = false ->
    exists k' r, Dict.get (rides (step' self op)) k' = Some r /\
                 Ride.completed r = false /\ Ride.driver r = k.
Proof.
  intros Hwf Hidle.
  destruct op as [name|name x y|rid sx sy dx dy|id|]; simpl; auto.
  - intros k d. destruct (Z.eq_dec (_driver_id self) k) as [<-|Hne].
    + rewrite DictFacts.get_set_eq. intros [= <-]. discriminate.
    + rewrite DictFacts.get_set_neq by assumption. apply Hidle.
  - unfold request_ride.
    destruct (Dict.get (riders self) rid) as [rider|]; auto.
    destruct (find self sx sy) as [[ref c]|] eqn:Ef; auto. simpl.
    pose proof (dict_ok_fresh _ _ _ (wf_rides _ Hwf)) as Hf.
    intros k d. destruct (Z.eq_dec ref k) as [<-|Hne].
    + intros _ _. do 2 eexists. rewrite DictFacts.get_set_eq.
      split; [reflexivity|]. split; reflexivity.
    + rewrite DictFacts.get_modify_neq by assumption. intros Hg Ha.
      destruct (Hidle k d Hg Ha) as (k' & r & Hr & Hc & Hd).
      exists k', r. split; [|auto].
      rewrite DictFacts.get_set_neq; auto.
      intros Heq. rewrite <- Heq in Hr. congruence.
  - unfold complete_ride.
    destruct (Dict.get (rides self) id) as [ride|] eqn:Eg; auto.
    destruct (Ride.completed ride) eqn:Ec; auto. simpl.
    intros k d. destruct (Z.eq_dec (Ride.driver ride) k) as [<-|Hne].
    + rewrite DictFacts.get_modify_eq.
      destruct (Dict.get (drivers self) (Ride.driver ride)); simpl;
        [|discriminate].
      intros [= <-]. discriminate.
    + rewrite DictFacts.get_modify_neq by assumption. intros Hg Ha.
      destruct (Hidle k d Hg Ha) as (k' & r & Hr & Hc & Hd).
      exists k', r. split; [|auto].
      rewrite DictFacts.get_modify_neq; auto.
      intros Heq. rewrite Heq in Eg. congruence.
Qed.

(** In every reachable state a driver is unavailable exactly when an
    active ride refers to it: no driver stays unavailable without a ride
    that [complete_ride] can still complete. *)
Theorem unavailable_iff_on_ride self k d :
  reach self ->
  Dict.get (drivers self) k = Some d ->
  (Driver.available d = false <->
   exists k' r, Dict.get (rides self) k' = Some r /\
                Ride.completed r = false /\ Ride.driver r = k).
Proof.
  intros Hreach Hg. split.
  - revert k d Hg. induction Hreach as [|self op Hreach IH].
    + discriminate.
    + apply idle_step; auto. eapply reachable_wf, Hreach.
  - intros (k' & r & Hr & Hc & <-).
    destruct (wf_busy _ (reachable_wf _ _ _ Hreach) k' r Hr Hc)
      as (d' & Hd' & Ha).
    congruence.
Qed.

Lemma step_riders self op k r :
  wf self -> Dict.get (riders self) k = Some r ->
  Dict.get (riders (step' self op)) k = Some r.
Proof.
  intros Hwf Hg.
  destruct op as [name|name x y|rid sx sy dx dy|id|]; simpl; auto.
  - rewrite DictFacts.get_set_neq; auto.
    intros Heq. rewrite <- Heq in Hg.
    rewrite (dict_ok_fresh _ _ _ (wf_riders _ Hwf)) in Hg. discriminate.
  - unfold request_ride. destruct (Dict.get (riders self) rid); auto.
    destruct (find self sx sy) as [[ref c]|]; auto.
  - unfold complete_ride. destruct (Dict.get (rides self) id) as [ride|]; auto.
    destruct (Ride.completed ride); auto.
Qed.

(** A rider, once registered, is never changed or removed: after any
    operations on a reachable state the same record is found under its
    id. *)
Theorem riders_never_change self ops k r :
  reach self ->
  Dict.get (riders self) k = Some r ->
  Dict.get (riders (run' self ops)) k = Some r.
Proof.
  intros Hreach. revert self Hreach.
  induction ops as [|op ops IH]; intros self Hreach Hg; simpl; auto.
  apply IH; [now constructor|].
  apply step_riders; auto. eapply reachable_wf, Hreach.
Qed.

Lemma step_driver self op k d :
  wf self -> Dict.get (drivers self) k = Some d ->
  exists d',
    Dict.get (drivers (step' self op)) k = Some d' /\
    Driver.id d' = Driver.id d /\ Driver.name d' = Driver.name d /\
    ((forall id, op <> CompleteRide id) ->
     Driver.x d' = Driver.x d /\ Driver.y d' = Driver.y d).
Proof.
  intros Hwf Hg.
  destruct op as [name|name x y|rid sx sy dx dy|id|]; simpl; eauto 6.
  - exists d. rewrite DictFacts.get_set_neq; auto.
    intros Heq. rewrite <- Heq in Hg.
    rewrite (dict_ok_fresh _ _ _ (wf_drivers _ Hwf)) in Hg. discriminate.
  - unfold request_ride. destruct (Dict.get (riders self) rid); eauto 6.
    destruct (find self sx sy) as [[ref c]|]; eauto 6. simpl.
    destruct (Z.eq_dec ref k) as [<-|Hne].
    + rewrite DictFacts.get_modify_eq, Hg. simpl. eauto 6.
    + rewrite DictFacts.get_modify_neq by assumption. eauto 6.
  - unfold complete_ride.
    destruct (Dict.get (rides self) id) as [ride|]; eauto 6.
    destruct (Ride.completed ride); eauto 6. simpl.
    destruct (Z.eq_dec (Ride.driver ride) k) as [<-|Hne].
    + rewrite DictFacts.get_modify_eq, Hg. simpl.
      eexists. split; [reflexivity|]. split; [reflexivity|].
      split; [reflexivity|]. intros Hop. exfalso. now apply (Hop id).
    + rewrite DictFacts.get_modify_neq by assumption. eauto 6.
Qed.

(** A driver, once registered, is never removed and keeps its id and
    name through any operations on a reachable state; its position is
    changed by no operation but [complete_ride]. *)
Theorem drivers_keep_identity self k d :
  reach self ->
  Dict.get (drivers self) k = Some d ->
  (forall ops, exists d',
     Dict.get (drivers (run' self ops)) k = Some d' /\
     Driver.id d' = Driver.id d /\ Driver.name d' = Driver.name d) /\
  (forall op, (forall id, op <> CompleteRide id) ->
     exists d',
       Dict.get (drivers (step' self op)) k = Some d' /\
       Driver.x d' = Driver.x d /\ Driver.y d' = Driver.y d).
Proof.
  intros Hreach Hg. split.
  - intros ops. revert self d Hreach Hg.
    induction ops as [|op ops IH]; intros self d Hreach Hg; simpl; eauto.
    destruct (step_driver self op k d (reachable_wf _ _ _ Hreach) Hg)
      as (d1 & Hg1 & Hid & Hname & _).
    destruct (IH (step' self op) d1 (reachable_step _ _ _ op Hreach) Hg1)
      as (d' & Hg' & Hid' & Hname').
    exists d'. repeat split; congruence.
  - intros op Hop.
    destruct (step_driver self op k d (reachable_wf _ _ _ Hreach) Hg)
      as (d1 & Hg1 & _ & _ & Hpos).
    exists d1. split; [exact Hg1 | now apply Hpos].
Qed.

End Core.

(** * The command line *)

Section Cli.

Variable hypot : float -> float -> float.
Variable round2 : float -> float.
Variable int_of_str : string -> option Z.
Variable float_of_str : string -> option float.

Local Abbreviation loop := (main_loop hypot round2 int_of_str float_of_str).
Local Abbreviation run' := (run hypot round2).
Local Abbreviation step' := (step hypot round2).

Lemma main_loop_unfold app inputs :
  loop app inputs
  = main_body hypot round2 int_of_str float_of_str loop app inputs.
Proof. destruct inputs; reflexivity. Qed.

(** Why a session can end within a turn. *)
Definition ends_here (inputs : list string) (e : Exit) : Prop :=
  match e with
  | Quit => In "6"%string inputs
  | EOFError => True
  | ValueError =>
      exists s, In s inputs /\
                (int_of_str s = None \/ float_of_str s = None)
  end.

(** One turn of the loop: the session ends in it, in the state it was in,
    or goes on, on fewer lines, in the same state or after one operation
    of the core. *)
Lemma main_loop_turn app inputs :
  (final (loop app inputs) = app /\ ends_here inputs (exit (loop app inputs))) \/
  (exists app' rest,
     (app' = app \/ exists op, app' = step' app op) /\
     (List.length rest < List.length inputs)%nat /\
     (forall s, In s rest -> In s inputs) /\
     final (loop app inputs) = final (loop app' rest) /\
     exit (loop app inputs) = exit (loop app' rest)).
Proof.
  rewrite main_loop_unfold. unfold main_body, input, parsed.
  destruct inputs as [|choice rest]; [left; simpl; auto|].
  cbn [say halt exit final output].
  destruct (String.eqb_spec choice "1").
  { destruct rest as [|name rest]; [left; simpl; auto|].
    right. exists (step' app (RegisterRider name)), rest.
    split; [right; eexists; reflexivity|]. split; [simpl; lia|].
    split; [intros s Hs; simpl; auto 10|]. split; reflexivity. }
  destruct (String.eqb_spec choice "2").
  { destruct rest as [|name rest]; [left; simpl; auto|].
    destruct rest as [|sx rest]; [left; simpl; auto|].
    destruct (float_of_str sx) as [x|] eqn:Ex;
      [|left; simpl; split; [reflexivity|]; exists sx; simpl; auto 10].
    destruct rest as [|sy rest]; [left; simpl; auto|].
    destruct (float_of_str sy) as [y|] eqn:Ey;
      [|left; simpl; split; [reflexivity|]; exists sy; simpl; auto 10].
    right. exists (step' app (RegisterDriver name x y)), rest.
    split; [right; eexists; reflexivity|]. split; [simpl; lia|].
    split; [intros s Hs; simpl; auto 10|]. split; reflexivity. }
  destruct (String.eqb_spec choice "3").
  { destruct rest as [|sid rest]; [left; simpl; auto|].
    destruct (int_of_str sid) as [rider_id|] eqn:Ei;
      [|left; simpl; split; [reflexivity|]; exists sid; simpl; auto 10].
    destruct rest as [|s1 rest]; [left; simpl; auto|].
    destruct (float_of_str s1) as [sx|] eqn:E1;
      [|left; simpl; split; [reflexivity|]; exists s1; simpl; auto 10].
    destruct rest as [|s2 rest]; [left; simpl; auto|].
    destruct (float_of_str s2) as [sy|] eqn:E2;
      [|left; simpl; split; [reflexivity|]; exists s2; simpl; auto 10].
    destruct rest as [|s3 rest]; [left; simpl; auto|].
    destruct (float_of_str s3) as [dx|] eqn:E3;
      [|left; simpl; split; [reflexivity|]; exists s3; simpl; auto 10].
    destruct rest as [|s4 rest]; [left; simpl; auto|].
    destruct (float_of_str s4) as [dy|] eqn:E4;
      [|left; simpl; split; [reflexivity|]; exists s4; simpl; auto 12].
    right. exists (step' app (RequestRide rider_id sx sy dx dy)), rest.
    split; [right; eexists; reflexivity|]. split; [simpl; lia|].
    split; [intros s Hs; simpl; auto 12|]. split; reflexivity. }
  destruct (String.eqb_spec choice "4").
  { destruct rest as [|sid rest]; [left; simpl; auto|].
    destruct (int_of_str sid) as [ride_id|] eqn:Ei;
      [|left; simpl; split; [reflexivity|]; exists sid; simpl; auto 10].
    right. exists (step' app (CompleteRide ride_id)), rest.
    split; [right; eexists; reflexivity|]. split; [simpl; lia|].
    split; [intros s Hs; simpl; auto 10|]. split; reflexivity. }
  destruct (String.eqb_spec choice "5").
  { right. exists (step' app ListRides), rest.
    split; [right; eexists; reflexivity|]. split; [simpl; lia|].
    split; [intros s Hs; simpl; auto 10|]. split; reflexivity. }
  destruct (String.eqb_spec choice "6").
  { left. simpl. auto. }
  right. exists app, rest.
  split; [now left|]. split; [simpl; lia|].
  split; [intros s Hs; simpl; auto 10|]. split; reflexivity.
Qed.

Lemma main_loop_runs n : forall inputs app,
  (List.length inputs <= n)%nat ->
  exists ops,
    final (loop app inputs) = run' app ops /\
    (List.length ops <= List.length inputs)%nat.
Proof.
  induction n as [|n IH]; intros inputs app Hlen;
    destruct (main_loop_turn app inputs)
      as [[Hf _]|(app' & rest & Happ & Hlt & _ & Hf & _)].
  - exists []. split; [exact Hf | simpl; lia].
  - lia.
  - exists []. split; [exact Hf | simpl; lia].
  - destruct (IH rest app') as (ops & Hops & Hl); [lia|].
    destruct Happ as [->|[op ->]].
    + exists ops. split; [congruence | lia].
    + exists (op :: ops). split; [rewrite Hf; exact Hops | simpl; lia].
Qed.

Lemma main_loop_exit n : forall inputs app,
  (List.length inputs <= n)%nat ->
  ends_here inputs (exit (loop app inputs)).
Proof.
  induction n as [|n IH]; intros inputs app Hlen;
    destruct (main_loop_turn app inputs)
      as [[_ He]|(app' & rest & _ & Hlt & Hin & _ & He)]; auto; [lia|].
  rewrite He. specialize (IH rest app' ltac:(lia)).
  destruct (exit (loop app' rest)); simpl in *; auto.
  destruct IH as (s & Hs & Hp). eauto.
Qed.

(** Whatever is typed, the state in which a session of [main] ends is
    the state of the core after some operations on a new [TaxiApp], at most
    one for each line typed: a reachable state, of which every invariant of
    the core holds. *)
Theorem main_final_reachable inputs :
  reachable hypot round2
    (final (main hypot round2 int_of_str float_of_str inputs)) /\
  exists ops,
    final (main hypot round2 int_of_str float_of_str inputs)
    = run' init ops /\
    (List.length ops <= List.length inputs)%nat.
Proof.
  destruct (main_loop_runs (List.length inputs) inputs init (le_n _))
    as (ops & Hops & Hl).
  split; [|eauto]. unfold main. rewrite Hops.
  apply reachable_run, reachable_init.
Qed.

(** A session of [main] ends by the choice 6 only when a line "6" was
    typed, and by [ValueError] only when some line typed is refused by
    [int] or by [float]; no call of the core ends it. *)
Theorem main_exit_cause inputs :
  (exit (main hypot round2 int_of_str float_of_str inputs) = Quit ->
   In "6"%string inputs) /\
  (exit (main hypot round2 int_of_str float_of_str inputs) = ValueError ->
   exists s, In s inputs /\
             (int_of_str s = None \/ float_of_str s = None)).
Proof.
  pose proof (main_loop_exit (List.length inputs) inputs init (le_n _)) as H.
  unfold main. split; intros He; rewrite He in H; exact H.
Qed.

(** A choice that is none of "1" ... "6" costs one turn: after the menu
    and the prompt the loop prints "Invalid choice" and goes on with the
    next line, in the same state. *)
Theorem main_invalid_choice app choice rest :
  ~ In choice ["1"; "2"; "3"; "4"; "5"; "6"]%string ->
  loop app (choice :: rest)
  = say (menu ++ [[Str "Choose an option: "]; msg_invalid_choice])
        (loop app rest).
Proof.
  intros Hnot. rewrite main_loop_unfold. unfold main_body, input.
  repeat match goal with
  | |- context [String.eqb choice ?c] =>
      destruct (String.eqb_spec choice c);
      [exfalso; apply Hnot; subst; simpl; tauto|]
  end.
  reflexivity.
Qed.

(** The command line drives the core as the menu says.  When the lines
    typed are those of a sequence of commands, each with numbers that [int]
    and [float] accept, the session has applied exactly the operations of
    these commands, in order: followed by "6" it ends by [Quit] whatever
    comes after, and with nothing more to read it ends by [EOFError], both
    times in the state of the core after these operations. *)
Theorem main_runs_script chunks ops :
  Forall2 (types_op int_of_str float_of_str) chunks ops ->
  forall app,
    (forall rest,
       exit (loop app (List.concat chunks ++ "6"%string :: rest)) = Quit /\
       final (loop app (List.concat chunks ++ "6"%string :: rest)) = run' app ops) /\
    exit (loop app (List.concat chunks)) = EOFError /\
    final (loop app (List.concat chunks)) = run' app ops.
Proof.
  induction 1 as [|chunk op chunks ops Hop _ IH]; intros app.
  - repeat split.
  - assert (Hturn : forall rest,
              exit (loop app (chunk ++ rest)) = exit (loop (step' app op) rest) /\
              final (loop app (chunk ++ rest))
              = final (loop (step' app op) rest)).
    { intros rest. rewrite main_loop_unfold. unfold main_body, input, parsed.
      destruct Hop; simpl;
        repeat match goal with H : _ = Some _ |- _ => rewrite H; clear H end;
        split; reflexivity. }
    destruct (IH (step' app op)) as (Hquit & Heof & Hfin).
    repeat split.
    + simpl. rewrite <- app_assoc.
      rewrite (proj1 (Hturn _)). apply Hquit.
    + simpl. rewrite <- app_assoc.
      rewrite (proj2 (Hturn _)). apply Hquit.
    + simpl. rewrite (proj1 (Hturn _)). exact Heof.
    + simpl. rewrite (proj2 (Hturn _)). exact Hfin.
Qed.

End Cli.

(** * Concrete runs of the further properties *)

Section MoreRuns.

Import Examples.

(** On [one_ride], where driver 1 is on ride 1 and driver 2, at (10,10),
    is free: from (1,1) driver 2 is chosen. *)
Lemma find_closest_driver_result_witness :
  _find_closest_driver hypot_ref one_ride 1 1
    = Some (2, Driver.mk 2 "far" 10 10 true) /\
  In (2, Driver.mk 2 "far" 10 10 true) (drivers one_ride) /\
  (dist_to hypot_ref 1 1 (Driver.mk 2 "far" 10 10 true) <? infinity)%float
    = true.
Proof.
  split; [reflexivity|].
  destruct (find_closest_driver_result hypot_ref one_ride 1%float 1%float)
    as (_ & Hsome).
  destruct (Hsome 2 (Driver.mk 2 "far" 10 10 true) eq_refl) as (Hin & _ & Hlt).
  split; assumption.
Defined.

(** On [two_drivers]: the request from (1,1) takes driver 1 and leaves
    driver 2 as it is. *)
Lemma request_ride_frame_witness :
  reachable hypot_ref round2_ref two_drivers /\
  exists ride,
    ret (request_ref two_drivers 1 1 1 5 5) = Some ride /\
    Ride.driver ride = 1 /\
    Dict.get (drivers (after (request_ref two_drivers 1 1 1 5 5))) 2
      = Dict.get (drivers two_drivers) 2 /\
    rides (after (request_ref two_drivers 1 1 1 5 5)) = [(1, ride)].
Proof.
  split; [apply reachable_ref|]. eexists. split; [reflexivity|].
  destruct (request_ride_frame hypot_ref round2_ref two_drivers 1
              1%float 1%float 5%float 5%float _
              (reachable_ref two_drivers_ops) eq_refl)
    as (_ & Hother & _ & Hrides).
  split; [reflexivity|]. split; [apply Hother; discriminate | exact Hrides].
Defined.

(** On [one_rider]: a second rider gets id 2 and rider 1 stays. *)
Lemma register_rider_stored_witness :
  reachable hypot_ref round2_ref one_rider /\
  Dict.get (riders (after (register_rider one_rider "bob"))) 2
    = Some (Rider.mk 2 "bob") /\
  Dict.get (riders (after (register_rider one_rider "bob"))) 1
    = Some (Rider.mk 1 "ann").
Proof.
  destruct (register_rider_stored hypot_ref round2_ref one_rider "bob"
              (reachable_ref [RegisterRider "ann"]))
    as (_ & Hnew & _ & Hold & _).
  split; [apply reachable_ref|]. split; [exact Hnew|].
  apply Hold. reflexivity.
Defined.

(** On [two_drivers]: a third driver gets id 3, available at (3,4). *)
Lemma register_driver_stored_witness :
  reachable hypot_ref round2_ref two_drivers /\
  Dict.get (drivers (after (register_driver two_drivers "new" 3 4))) 3
    = Some (Driver.mk 3 "new" 3 4 true) /\
  Dict.get (drivers (after (register_driver two_drivers "new" 3 4))) 1
    = Some (Driver.mk 1 "near" 0 0 true).
Proof.
  destruct (register_driver_stored hypot_ref round2_ref two_drivers "new"
              3%float 4%float (reachable_ref two_drivers_ops))
    as (_ & Hnew & _ & Hold & _).
  split; [apply reachable_ref|]. split; [exact Hnew|].
  apply Hold. reflexivity.
Defined.

(** On [two_drivers]: the ride from (1,1) to (5,5), completed at once,
    leaves driver 1 available at (5,5). *)
Lemma request_then_complete_witness :
  reachable hypot_ref round2_ref two_drivers /\
  exists ride,
    ret (request_ref two_drivers 1 1 1 5 5) = Some ride /\
    Dict.get
      (drivers (after (complete_ride
                         (after (request_ref two_drivers 1 1 1 5 5)) 1))) 1
    = Some (Driver.mk 1 "near" 5 5 true).
Proof.
  split; [apply reachable_ref|]. eexists. split; [reflexivity|].
  destruct (request_then_complete hypot_ref round2_ref two_drivers 1
              1%float 1%float 5%float 5%float _
              (reachable_ref two_drivers_ops) eq_refl)
    as (_ & _ & d & Hd & Hafter).
  assert (d = Driver.mk 1 "near" 0 0 true)
    by (apply (f_equal (fun o => match o with Some v => v | None => d end))
          in Hd; symmetry; exact Hd).
  subst d. exact Hafter.
Defined.

(** On [one_ride]: driver 1 is unavailable, and ride 1 is the active ride
    that refers to it. *)
Lemma unavailable_iff_on_ride_witness :
  reachable hypot_ref round2_ref one_ride /\
  Dict.get (drivers one_ride) 1 = Some (Driver.mk 1 "near" 0 0 false) /\
  exists k' r,
    Dict.get (rides one_ride) k' = Some r /\
    Ride.completed r = false /\ Ride.driver r = 1.
Proof.
  split; [apply reachable_ref|]. split; [reflexivity|].
  apply (unavailable_iff_on_ride hypot_ref round2_ref one_ride 1
           (Driver.mk 1 "near" 0 0 false)
           (reachable_ref one_ride_ops) eq_refl).
  reflexivity.
Defined.

(** On [one_rider]: rider 1 is the same after a registration, a failed
    request and a listing. *)
Lemma riders_never_change_witness :
  reachable hypot_ref round2_ref one_rider /\
  Dict.get (riders one_rider) 1 = Some (Rider.mk 1 "ann") /\
  Dict.get
    (riders (run_ref one_rider
               [RegisterRider "bob"; RequestRide 1 0 0 1 1; ListRides])) 1
  = Some (Rider.mk 1 "ann").
Proof.
  split; [apply reachable_ref|]. split; [reflexivity|].
  apply (riders_never_change hypot_ref round2_ref one_rider
           [RegisterRider "bob"; RequestRide 1 0%float 0%float 1%float 1%float;
            ListRides]
           1 (Rider.mk 1 "ann") (reachable_ref [RegisterRider "ann"])
           eq_refl).
Defined.

(** On [two_drivers]: driver 1 keeps id and name through a ride and its
    completion, and its position through the request. *)
Lemma drivers_keep_identity_witness :
  reachable hypot_ref round2_ref two_drivers /\
  (exists d',
     Dict.get
       (drivers (run_ref two_drivers [RequestRide 1 1 1 5 5; CompleteRide 1]))
       1 = Some d' /\
     Driver.id d' = 1 /\ Driver.name d' = "near"%string) /\
  (exists d',
     Dict.get (drivers (run_ref two_drivers [RequestRide 1 1 1 5 5])) 1
       = Some d' /\
     Driver.x d' = 0%float /\ Driver.y d' = 0%float).
Proof.
  destruct (drivers_keep_identity hypot_ref round2_ref two_drivers 1
              (Driver.mk 1 "near" 0 0 true)
              (reachable_ref two_drivers_ops) eq_refl)
    as (Hrun & Hstep).
  split; [apply reachable_ref|]. split.
  - apply (Hrun [RequestRide 1 1%float 1%float 5%float 5%float;
                 CompleteRide 1]).
  - apply (Hstep (RequestRide 1 1%float 1%float 5%float 5%float)).
    discriminate.
Defined.

(** A session that ends by the choice 6, and one that ends on the ride
    id "abc". *)
Lemma main_exit_cause_witness :
  (exit (main hypot_ref round2_ref int_ref float_ref ["1"; "ann"; "6"]%string)
     = Quit /\
   In "6"%string ["1"; "ann"; "6"]%string) /\
  (exit (main hypot_ref round2_ref int_ref float_ref ["4"; "abc"; "6"]%string)
     = ValueError /\
   exists s, In s ["4"; "abc"; "6"]%string /\
             (int_ref s = None \/ float_ref s = None)).
Proof.
  split.
  - split; [reflexivity|].
    apply (proj1 (main_exit_cause hypot_ref round2_ref int_ref float_ref
                    ["1"; "ann"; "6"]%string)).
    reflexivity.
  - split; [reflexivity|].
    apply (proj2 (main_exit_cause hypot_ref round2_ref int_ref float_ref
                    ["4"; "abc"; "6"]%string)).
    reflexivity.
Defined.

(** The choice "7" on a new application, then "6". *)
Lemma main_invalid_choice_witness :
  ~ In "7"%string ["1"; "2"; "3"; "4"; "5"; "6"]%string /\
  main_loop hypot_ref round2_ref int_ref float_ref init ["7"; "6"]%string
  = say (menu ++ [[Str "Choose an option: "]; msg_invalid_choice])
        (main_loop hypot_ref round2_ref int_ref float_ref init ["6"%string]).
Proof.
  assert (Hnot : ~ In "7"%string ["1"; "2"; "3"; "4"; "5"; "6"]%string)
    by (simpl; intuition discriminate).
  split; [exact Hnot|].
  apply (main_invalid_choice hypot_ref round2_ref int_ref float_ref init
           "7"%string ["6"%string] Hnot).
Defined.

(** Registering a rider and a driver, requesting a ride and completing
    it, typed at the menu. *)
Lemma main_runs_script_witness :
  Forall2 (types_op int_ref float_ref)
    [["1"; "ann"]; ["2"; "near"; "0"; "0"]; ["3"; "1"; "1"; "1"; "5"; "5"];
     ["4"; "1"]]%string
    [RegisterRider "ann"; RegisterDriver "near" 0 0; RequestRide 1 1 1 5 5;
     CompleteRide 1] /\
  exit (main hypot_ref round2_ref int_ref float_ref
          ["1"; "ann"; "2"; "near"; "0"; "0"; "3"; "1"; "1"; "1"; "5"; "5";
           "4"; "1"; "6"; "5"]%string) = Quit /\
  final (main hypot_ref round2_ref int_ref float_ref
           ["1"; "ann"; "2"; "near"; "0"; "0"; "3"; "1"; "1"; "1"; "5"; "5";
            "4"; "1"; "6"; "5"]%string)
  = run_ref init
      [RegisterRider "ann"; RegisterDriver "near" 0 0; RequestRide 1 1 1 5 5;
       CompleteRide 1].
Proof.
  assert (Htyped :
            Forall2 (types_op int_ref float_ref)
              [["1"; "ann"]; ["2"; "near"; "0"; "0"];
               ["3"; "1"; "1"; "1"; "5"; "5"]; ["4"; "1"]]%string
              [RegisterRider "ann"; RegisterDriver "near" 0 0;
               RequestRide 1 1 1 5 5; CompleteRide 1]).
  { repeat constructor. }
  split; [exact Htyped|].
  destruct (main_runs_script hypot_ref round2_ref int_ref float_ref _ _
              Htyped init) as (Hquit & _).
  exact (Hquit ["5"%string]).
Defined.

End MoreRuns.
